(** * A shallow embedding of [retrieval_graph/crawler.py]

    The development follows the Python class [WebCrawler]: the string
    helpers it calls, [is_allowed], [normalize_url], [save_page_content]
    and the breadth-first loop of [crawl].  The browser, the file system
    and [uuid] are an explicit [world] that answers each call; the three
    [urllib.parse] functions the class imports are parameters of the
    development. *)

From Stdlib Require Import ZArith NArith String Ascii List Lia.
From stdpp Require Import base decidable option list gmap sets strings.

Local Open Scope string_scope.
Local Open Scope Z_scope.
Local Open Scope list_scope.

(** ** Python [str] methods used by the crawler *)

Module PyStr.

(** [s.count(c)] for a one-character [c]. *)
Fixpoint count (c : ascii) (s : string) : nat :=
  match s with
  | EmptyString => 0%nat
  | String a s' => ((if Ascii.eqb a c then 1 else 0) + count c s')%nat
  end.

(** [s.endswith(suffix)]: some tail of [s] is [suffix]. *)
Fixpoint endswith (s suffix : string) : bool :=
  String.eqb s suffix ||
  match s with
  | EmptyString => false
  | String _ s' => endswith s' suffix
  end.

(** [s.rstrip(c)] for a one-character [c]: drop every trailing [c]. *)
Fixpoint rstrip (c : ascii) (s : string) : string :=
  match s with
  | EmptyString => EmptyString
  | String a s' =>
      match rstrip c s' with
      | EmptyString => if Ascii.eqb a c then EmptyString else String a EmptyString
      | r => String a r
      end
  end.

(** [os.path.join(folder, name)] on POSIX, for a relative [name]. *)
Definition path_join (folder name : string) : string :=
  if String.eqb folder "" then name
  else if endswith folder "/" then folder +:+ name
  else folder +:+ "/" +:+ name.

End PyStr.

(** ** Exceptions and results *)

(** The exception classes that the modelled calls raise; all of them are
    subclasses of Python's [Exception]. *)
Inductive exn : Type :=
  | TimeoutError | PlaywrightError | OSError | UnicodeEncodeError | ValueError.

Inductive result (A : Type) : Type :=
  | Ok (a : A)
  | Raise (e : exn).
Arguments Ok {A} a.
Arguments Raise {A} e.

(** ** Page content and its UTF-8 encoding *)

(** A Python [str] holding page content: a sequence of code points. *)
Definition text : Type := list N.

(** The bytes of one code point under [encoding='utf-8']; a surrogate is
    not encodable. *)
Definition utf8_char (c : N) : option (list N) :=
  (if c <? 128 then Some [c]
   else if c <? 2048 then Some [192 + c / 64; 128 + c mod 64]
   else if c <? 65536 then
     if (55296 <=? c) && (c <? 57344) then None
     else Some [224 + c / 4096; 128 + (c / 64) mod 64; 128 + c mod 64]
   else if c <? 1114112 then
     Some [240 + c / 262144; 128 + (c / 4096) mod 64;
           128 + (c / 64) mod 64; 128 + c mod 64]
   else None)%N.

Fixpoint utf8_encode (s : text) : result (list N) :=
  match s with
  | [] => Ok []
  | c :: s' =>
      match utf8_char c, utf8_encode s' with
      | Some bs, Ok rest => Ok (bs ++ rest)
      | None, _ => Raise UnicodeEncodeError
      | _, Raise e => Raise e
      end
  end.

Definition is_ascii (s : text) : Prop := Forall (fun c => (c < 128)%N) s.

(** ** The collaborators of the crawler *)

(** What [urllib.parse] provides: [urldefrag(url)[0]], [urlparse(url).netloc]
    and [urljoin(base, href)], the last of which raises [ValueError] on an
    href it cannot parse. *)
Record urllib : Type := {
  urldefrag : string -> string;
  netloc : string -> string;
  urljoin : string -> string -> result string
}.

(** A Playwright page after [page.goto]: the response status, the rendered
    HTML of [page.content()], the handles of [a[href]] each with the answer
    of [get_attribute("href")], and the outcome of [page.close()]. *)
Record page : Type := {
  status : Z;
  content : result text;
  element_handles : result (list (result (option string)));
  close : result unit
}.

(** The environment of one run.  The [k]-th navigation of the run (counted
    from 0) is answered by [goto k]; the save that follows it draws its file
    name from [uuid4_hex k], opens the file with [open_w k] and writes the
    encoded bytes with [write_w k]; when that write raises, the first
    [flushed k] of the bytes have reached the file. *)
Record world : Type := {
  launch : result unit;
  goto : nat -> string -> result page;
  uuid4_hex : nat -> string;
  open_w : nat -> string -> result unit;
  write_w : nat -> string -> list N -> result unit;
  flushed : nat -> nat
}.

(** The constructor arguments of [WebCrawler]. *)
Record crawler : Type := {
  starter_urls : list string;
  hops : Z;
  allowed_domains : list string;
  storage_folder : string
}.

(** One entry of [crawled_pages]. *)
Record page_record : Type := {
  url : string;
  local_filepath : string;
  size : Z
}.

(** The lines the crawler prints. *)
Inductive line : Type :=
  | Crawling (u : string)
  | FailedStatus (u : string) (code : Z)
  | FailedExn (u : string) (e : exn).

(** The mutable state of a run: the local [queue], the two instance fields
    [visited_urls] and [crawled_pages], the files under the storage folder
    and the printed lines. *)
Record state : Type := {
  queue : list (string * Z);
  visited_urls : gset string;
  crawled_pages : list page_record;
  disk : gmap string (list N);
  stdout : list line
}.

Definition set_queue (q : list (string * Z)) (st : state) : state :=
  {| queue := q; visited_urls := visited_urls st;
     crawled_pages := crawled_pages st; disk := disk st; stdout := stdout st |}.

Definition set_visited_urls (v : gset string) (st : state) : state :=
  {| queue := queue st; visited_urls := v;
     crawled_pages := crawled_pages st; disk := disk st; stdout := stdout st |}.

Definition set_crawled_pages (p : list page_record) (st : state) : state :=
  {| queue := queue st; visited_urls := visited_urls st;
     crawled_pages := p; disk := disk st; stdout := stdout st |}.

Definition set_disk (d : gmap string (list N)) (st : state) : state :=
  {| queue := queue st; visited_urls := visited_urls st;
     crawled_pages := crawled_pages st; disk := d; stdout := stdout st |}.

Definition set_stdout (o : list line) (st : state) : state :=
  {| queue := queue st; visited_urls := visited_urls st;
     crawled_pages := crawled_pages st; disk := disk st; stdout := o |}.

(** The URLs of the [Crawling: ...] lines: one per navigation, in order. *)
Fixpoint fetched (out : list line) : list string :=
  match out with
  | [] => []
  | Crawling u :: out' => u :: fetched out'
  | _ :: out' => fetched out'
  end.

(** ** State and exceptions: the monad of the loop body *)

Definition M (A : Type) : Type := state -> result A * state.

Definition ret {A} (a : A) : M A := fun st => (Ok a, st).

Definition bind {A B} (m : M A) (f : A -> M B) : M B :=
  fun st =>
    match m st with
    | (Ok a, st') => f a st'
    | (Raise e, st') => (Raise e, st')
    end.

Definition lift {A} (r : result A) : M A := fun st => (r, st).
Definition gets {A} (f : state -> A) : M A := fun st => (Ok (f st), st).
Definition modify (f : state -> state) : M unit := fun st => (Ok tt, f st).

Declare Scope crawl_scope.
Delimit Scope crawl_scope with crawl.
Notation "x <- m ;; k" := (bind m (fun x => k))
  (at level 100, m at next level, right associativity) : crawl_scope.
Notation "m ;;; k" := (bind m (fun _ => k))
  (at level 100, right associativity) : crawl_scope.

Local Open Scope crawl_scope.

Fixpoint for_each {A} (l : list A) (body : A -> M unit) : M unit :=
  match l with
  | [] => ret tt
  | x :: l' => body x ;;; for_each l' body
  end.

Definition print (l : line) : M unit :=
  modify (fun st => set_stdout (stdout st ++ [l]) st).

(** ** The class [WebCrawler] *)

Section WebCrawler.

Variable lib : urllib.
Variable self : crawler.
Variable w : world.

Definition is_allowed (url : string) : bool :=
  let domain := netloc lib url in
  existsb (fun allowed => PyStr.endswith domain allowed) (allowed_domains self).

Definition normalize_url (url : string) : string :=
  let url := urldefrag lib url in
  if (PyStr.count "/" url =? 2)%nat && negb (PyStr.endswith url "/")
  then url +:+ "/"
  else PyStr.rstrip "/" url.

(** [save_page_content], called for the [k]-th navigation. *)
Definition save_page_content (k : nat) (content : text) (url : string) : M unit :=
  let file_name := uuid4_hex w k +:+ ".html" in
  let file_path := PyStr.path_join (storage_folder self) file_name in
  lift (open_w w k file_path) ;;;
  modify (fun st => set_disk (<[file_path := []]> (disk st)) st) ;;;
  bytes <- lift (utf8_encode content) ;;
  modify (fun st =>
    set_disk (<[file_path := take (flushed w k) bytes]> (disk st)) st) ;;;
  lift (write_w w k file_path bytes) ;;;
  modify (fun st => set_disk (<[file_path := bytes]> (disk st)) st) ;;;
  modify (fun st => set_crawled_pages
    (crawled_pages st ++
       [{| url := url; local_filepath := file_path;
           size := Z.of_nat (length content) |}]) st).

(** The body of the [for link in links] loop. *)
Definition follow_link (current_url : string) (depth : Z)
    (link : result (option string)) : M unit :=
  href <- lift link ;;
  match href with
  | None => ret tt
  | Some h =>
      if String.eqb h "" then ret tt
      else
        joined <- lift (urljoin lib current_url h) ;;
        let normalized_href := normalize_url joined in
        visited <- gets visited_urls ;;
        if is_allowed normalized_href
           && negb (bool_decide (normalized_href ∈ visited))
        then modify (fun st => set_queue (queue st ++ [(normalized_href, depth + 1)]) st)
        else ret tt
  end.

(** The test of line 135 on [response.status]. *)
Definition bad_status (code : Z) : bool := (code <? 200) || (code >=? 400).

(** The body of the [try] block, for the [k]-th navigation. *)
Definition visit (k : nat) (current_url normalized_url : string) (depth : Z) : M unit :=
  page <- lift (goto w k current_url) ;;
  if bad_status (status page) then
    print (FailedStatus current_url (status page))
  else
    modify (fun st => set_visited_urls ({[normalized_url]} ∪ visited_urls st) st) ;;;
    content <- lift (content page) ;;
    save_page_content k content current_url ;;;
    links <- lift (element_handles page) ;;
    for_each links (follow_link current_url depth) ;;;
    lift (close page).

(** One turn of [while queue:]. *)
Definition iteration (st : state) : state :=
  match queue st with
  | [] => st
  | (current_url, depth) :: rest =>
      let st := set_queue rest st in
      let normalized_url := normalize_url current_url in
      if bool_decide (normalized_url ∈ visited_urls st) || (depth >? hops self)
      then st
      else
        let k := length (fetched (stdout st)) in
        let st := set_stdout (stdout st ++ [Crawling current_url]) st in
        match visit k current_url normalized_url depth st with
        | (Ok _, st') => st'
        | (Raise e, st') => set_stdout (stdout st' ++ [FailedExn current_url e]) st'
        end
  end.

Fixpoint crawl_loop (fuel : nat) (st : state) : option state :=
  match queue st with
  | [] => Some st
  | _ :: _ =>
      match fuel with
      | O => None
      | S fuel' => crawl_loop fuel' (iteration st)
      end
  end.

(** The crawler as [__init__] leaves it, with the queue of line 117. *)
Definition init : state :=
  {| queue := map (fun url => (normalize_url url, 0)) (starter_urls self);
     visited_urls := ∅; crawled_pages := []; disk := ∅; stdout := [] |}.

(** [crawl], from its first line to the end of the [while] loop: [None]
    when the fuel runs out, otherwise how the call ends and the state it
    leaves.  [launch] stands for the calls that precede the loop; the
    [browser.close()] that follows it is not part of this definition, and
    [urllib] is taken on the URLs that it parses. *)
Definition crawl (fuel : nat) : option (result unit * state) :=
  match launch w with
  | Raise e => Some (Raise e, set_queue [] init)
  | Ok _ =>
      match crawl_loop fuel init with
      | Some st => Some (Ok tt, st)
      | None => None
      end
  end.

(** The state after [n] turns of the loop. *)
Definition run (n : nat) : state := Nat.iter n iteration init.

End WebCrawler.

(** ** Vocabulary for the statements *)

Section Outcomes.

Variable lib : urllib.
Variable self : crawler.
Variable w : world.

(** The [k]-th navigation, to [u], is a successful fetch: [page.goto]
    returned and the status passed the test of line 135. *)
Definition fetch_ok (k : nat) (u : string) : bool :=
  match goto w k u with
  | Ok p => negb (bad_status (status p))
  | Raise _ => false
  end.

(** The [k]-th navigation, to [u], went as far as a completed
    [save_page_content]. *)
Definition persisted (k : nat) (u : string) : Prop :=
  exists p c,
    goto w k u = Ok p /\ bad_status (status p) = false /\ content p = Ok c /\
    forall st, (save_page_content self w k c u st).1 = Ok tt.

(** The path that the [k]-th save writes. *)
Definition save_path (k : nat) : string :=
  PyStr.path_join (storage_folder self) (uuid4_hex w k +:+ ".html").

(** The exception, if any, that stops [follow_link] on one link. *)
Definition link_error (current_url : string) (link : result (option string)) : option exn :=
  match link with
  | Raise e => Some e
  | Ok None => None
  | Ok (Some h) =>
      if String.eqb h "" then None
      else match urljoin lib current_url h with
           | Raise e => Some e
           | Ok _ => None
           end
  end.

(** The queue entries that [follow_link] appends for one link. *)
Definition accepts (visited : gset string) (current_url : string) (depth : Z)
    (link : result (option string)) : list (string * Z) :=
  match link with
  | Ok (Some h) =>
      if String.eqb h "" then []
      else match urljoin lib current_url h with
           | Ok joined =>
               let n := normalize_url lib joined in
               if is_allowed lib self n && negb (bool_decide (n ∈ visited))
               then [(n, depth + 1)] else []
           | Raise _ => []
           end
  | _ => []
  end.

(** The links that the [for] loop handles to the end, and the exception
    that stops it, if one does. *)
Fixpoint walk (current_url : string) (links : list (result (option string)))
    : list (result (option string)) * option exn :=
  match links with
  | [] => ([], None)
  | l :: ls =>
      match link_error current_url l with
      | Some e => ([], Some e)
      | None => let (handled, r) := walk current_url ls in (l :: handled, r)
      end
  end.

(** How far below the hop limit a queue entry is; [0] when it is beyond. *)
Definition height (e : string * Z) : nat := Z.to_nat (hops self + 1 - e.2).

(** A queue entry is a seed or a link that passed the domain filter. *)
Definition seed_or_allowed (e : string * Z) : Prop :=
  (e.2 = 0 /\ e.1 ∈ (normalize_url lib <$> starter_urls self)) \/
  (0 < e.2 /\ is_allowed lib self e.1 = true).

(** The bookkeeping of a run agrees with its navigations: the visited set
    holds the keys of the successful fetches and nothing else, a key that a
    successful fetch marked is not navigated to again, and every record
    comes from a navigation that was fetched and saved. *)
Definition coherent (st : state) : Prop :=
  let fs := fetched (stdout st) in
  (forall x, x ∈ visited_urls st <->
     exists i u, fs !! i = Some u /\ fetch_ok i u = true /\ x = normalize_url lib u) /\
  (forall i j u v, (i < j)%nat -> fs !! i = Some u -> fs !! j = Some v ->
     fetch_ok i u = true -> normalize_url lib u <> normalize_url lib v) /\
  (forall r, r ∈ crawled_pages st ->
     exists i, fs !! i = Some (url r) /\ persisted i (url r)).

(** Every queue entry is a seed or a filtered link, and so is every URL the
    run navigated to. *)
Definition filtered (st : state) : Prop :=
  Forall seed_or_allowed (queue st) /\
  Forall (fun u => u ∈ (normalize_url lib <$> starter_urls self) \/
                   is_allowed lib self u = true)
         (fetched (stdout st)).

End Outcomes.

Definition result_of (o : option exn) : result unit :=
  match o with
  | Some e => Raise e
  | None => Ok tt
  end.

(** ** Concrete collaborators for the closed examples *)

Module Examples.

(** The part of [s] before the first [c]. *)
Fixpoint before (c : ascii) (s : string) : string :=
  match s with
  | EmptyString => EmptyString
  | String a s' => if Ascii.eqb a c then EmptyString else String a (before c s')
  end.

(** The part of [s] after the first ["//"]. *)
Fixpoint after_slashes (s : string) : string :=
  match s with
  | String "/" (String "/" r) => r
  | String _ s' => after_slashes s'
  | EmptyString => EmptyString
  end.

(** A stand-in for [urllib.parse] that agrees with it on the URLs of the
    examples below, which are of the form [scheme://authority/path] with
    absolute hrefs: the URL without its fragment, the authority between
    ["//"] and the next ["/"], and an absolute href taken as it is. *)
Definition simple_urllib : urllib :=
  {| urldefrag := before "#";
     netloc := fun u => before "/" (after_slashes u);
     urljoin := fun _ href => Ok href |}.

Definition a_url : string := "http://example.com/a".
Definition b_url : string := "http://example.com/b".

Definition site (hopsv : Z) (starters : list string) : crawler :=
  {| starter_urls := starters; hops := hopsv;
     allowed_domains := ["example.com"]; storage_folder := "store" |}.

Definition evil_url : string := "http://evil.org/x".

Definition two_seeds : crawler := site 0 [a_url; b_url].
Definition one_seed : crawler := site 1 [a_url].
Definition stray_seed : crawler := site 0 [evil_url].
Definition lone_seed : crawler := site 0 [a_url].

(** The content ["hi"]. *)
Definition hi : text := [104; 105]%N.

(** A page that renders as ["hi"] with the given anchors. *)
Definition page_with (code : Z) (links : list (result (option string))) : page :=
  {| status := code; content := Ok hi; element_handles := Ok links; close := Ok tt |}.

Definition uuids (k : nat) : string :=
  match k with
  | O => "0f8fad5bd9cb469fa16570867728950e"
  | 1%nat => "7c9e6679742540de944be07fc1f90ae7"
  | _ => "e02fd0e4002b4d02b844a1b2c3d4e5f6"
  end.

(** Every page is empty of links and the disk refuses the first file. *)
Definition disk_fails_once : world :=
  {| launch := Ok tt;
     goto := fun _ _ => Ok (page_with 200 []);
     uuid4_hex := uuids;
     open_w := fun k _ => match k with O => Raise OSError | _ => Ok tt end;
     write_w := fun _ _ _ => Ok tt;
     flushed := fun _ => 0%nat |}.

(** Page [a] links twice to [b], which answers 404. *)
Definition b_is_missing : world :=
  {| launch := Ok tt;
     goto := fun _ u =>
       if String.eqb u a_url
       then Ok (page_with 200 [Ok (Some b_url); Ok (Some b_url)])
       else Ok (page_with 404 []);
     uuid4_hex := uuids;
     open_w := fun _ _ => Ok tt;
     write_w := fun _ _ _ => Ok tt;
     flushed := fun _ => 0%nat |}.

(** Every page answers 200 with no links. *)
Definition all_fine : world :=
  {| launch := Ok tt;
     goto := fun _ _ => Ok (page_with 200 []);
     uuid4_hex := uuids;
     open_w := fun _ _ => Ok tt;
     write_w := fun _ _ _ => Ok tt;
     flushed := fun _ => 0%nat |}.

(** Page [a] has a link to [b] and then a handle that is detached when its
    attribute is read. *)
Definition detached_handle : world :=
  {| launch := Ok tt;
     goto := fun _ u =>
       if String.eqb u a_url
       then Ok (page_with 200 [Ok (Some b_url); Raise PlaywrightError])
       else Ok (page_with 200 []);
     uuid4_hex := uuids;
     open_w := fun _ _ => Ok tt;
     write_w := fun _ _ _ => Ok tt;
     flushed := fun _ => 0%nat |}.

(** Every page renders as the single character U+00E9. *)
Definition e_acute : text := [233]%N.

Definition accented : world :=
  {| launch := Ok tt;
     goto := fun _ _ =>
       Ok {| status := 200; content := Ok e_acute;
             element_handles := Ok []; close := Ok tt |};
     uuid4_hex := uuids;
     open_w := fun _ _ => Ok tt;
     write_w := fun _ _ _ => Ok tt;
     flushed := fun _ => 0%nat |}.

(** The first navigation times out. *)
Definition first_times_out : world :=
  {| launch := Ok tt;
     goto := fun k _ =>
       match k with
       | O => Raise TimeoutError
       | _ => Ok (page_with 200 [])
       end;
     uuid4_hex := uuids;
     open_w := fun _ _ => Ok tt;
     write_w := fun _ _ _ => Ok tt;
     flushed := fun _ => 0%nat |}.

Definition empty_state : state :=
  {| queue := []; visited_urls := ∅; crawled_pages := []; disk := ∅; stdout := [] |}.

End Examples.

(** ** The host of a network location, in the words of the specification *)

(** The part of [s] after its last [c]; the whole of [s] when it has none. *)
Fixpoint after_last (c : ascii) (s : string) : string :=
  match s with
  | EmptyString => EmptyString
  | String a s' =>
      if (PyStr.count c s' =? 0)%nat
      then (if Ascii.eqb a c then s' else s)
      else after_last c s'
  end.

(** The host component that the specification speaks of, for a network
    location whose host is a lower-case name or an IPv4 address: the user
    information up to the last ["@"] and the port from the first [":"] are
    left out. *)
Definition host_component (netloc : string) : string :=
  Examples.before ":" (after_last "@" netloc).

(** A page whose rendered content cannot be read. *)
Definition content_unreadable : world :=
  {| launch := Ok tt;
     goto := fun _ _ =>
       Ok {| status := 200; content := Raise PlaywrightError;
             element_handles := Ok []; close := Ok tt |};
     uuid4_hex := Examples.uuids;
     open_w := fun _ _ => Ok tt;
     write_w := fun _ _ _ => Ok tt;
     flushed := fun _ => 0%nat |}.

(** ** Reading the saved pages back: [index_graph.py] *)

(** Whether [b] is a UTF-8 continuation byte. *)
Definition is_cont (b : N) : bool := ((128 <=? b) && (b <? 192))%N.

(** The strict UTF-8 decoder behind [open(path, 'r', encoding='utf-8')]:
    it refuses stray continuation bytes, truncated and overlong sequences,
    surrogates and values above U+10FFFF. *)
Fixpoint utf8_decode (bs : list N) : option text :=
  match bs with
  | [] => Some []
  | b0 :: r0 =>
      (if b0 <? 128 then cons b0 <$> utf8_decode r0
       else if (194 <=? b0) && (b0 <? 224) then
         match r0 with
         | b1 :: r1 =>
             if is_cont b1
             then cons ((b0 - 192) * 64 + (b1 - 128)) <$> utf8_decode r1
             else None
         | _ => None
         end
       else if (224 <=? b0) && (b0 <? 240) then
         match r0 with
         | b1 :: b2 :: r2 =>
             if is_cont b1 && is_cont b2
                && (negb (b0 =? 224) || (160 <=? b1))
                && (negb (b0 =? 237) || (b1 <? 160))
             then cons ((b0 - 224) * 4096 + (b1 - 128) * 64 + (b2 - 128))
                    <$> utf8_decode r2
             else None
         | _ => None
         end
       else if (240 <=? b0) && (b0 <? 245) then
         match r0 with
         | b1 :: b2 :: b3 :: r3 =>
             if is_cont b1 && is_cont b2 && is_cont b3
                && (negb (b0 =? 240) || (144 <=? b1))
                && (negb (b0 =? 244) || (b1 <? 144))
             then cons ((b0 - 240) * 262144 + (b1 - 128) * 4096
                        + (b2 - 128) * 64 + (b3 - 128))
                    <$> utf8_decode r3
             else None
         | _ => None
         end
       else None)%N
  end.

(** Universal newlines, the reading mode of a text file opened without a
    [newline] argument: ["\r\n"] and a lone ["\r"] are read as ["\n"]. *)
Fixpoint universal_newlines (s : text) : text :=
  match s with
  | [] => []
  | c :: s' =>
      if (c =? 13)%N then
        10%N :: match s' with
                | c' :: s'' =>
                    if (c' =? 10)%N then universal_newlines s''
                    else universal_newlines s'
                | [] => []
                end
      else c :: universal_newlines s'
  end.

(** The exceptions of the indexing layer. *)
Inductive index_exn : Type :=
  | KeyError (key : string)
  | FileNotFoundError (path : string)
  | UnicodeDecodeError.

Inductive attempt (A : Type) : Type :=
  | Done (a : A)
  | Failed (e : index_exn).
Arguments Done {A} a.
Arguments Failed {A} e.

(** A langchain [Document]: its text and its metadata dictionary. *)
Record document (V : Type) : Type := {
  page_content : text;
  metadata : gmap string V
}.
Arguments page_content {V} d.
Arguments metadata {V} d.

(** [ensure_docs_have_user_id(docs, config)]; [config] is given by its
    dictionary-valued entries. *)
Definition ensure_docs_have_user_id {V : Type} (docs : list (document V))
    (config : gmap string (gmap string V)) : attempt (list (document V)) :=
  match config !! "configurable" with
  | None => Failed (KeyError "configurable")
  | Some configurable =>
      match configurable !! "user_id" with
      | None => Failed (KeyError "user_id")
      | Some user_id =>
          Done (map (fun doc =>
                       {| page_content := page_content doc;
                          metadata := <["user_id" := user_id]> (metadata doc) |})
                    docs)
      end
  end.

(** [get_file_content(file_path)] on the files of a run. *)
Definition get_file_content (files : gmap string (list N)) (file_path : string)
    : attempt text :=
  match files !! file_path with
  | None => Failed (FileNotFoundError file_path)
  | Some bytes =>
      match utf8_decode bytes with
      | None => Failed UnicodeDecodeError
      | Some s => Done (universal_newlines s)
      end
  end.

(** The list comprehension that ends [crawl] of [index_graph.py]. *)
Fixpoint read_pages (files : gmap string (list N)) (pages : list page_record)
    : attempt (list (document string)) :=
  match pages with
  | [] => Done []
  | page :: pages' =>
      match get_file_content files (local_filepath page) with
      | Failed e => Failed e
      | Done s =>
          match read_pages files pages' with
          | Failed e => Failed e
          | Done docs =>
              Done ({| page_content := s;
                       metadata := {["url" := url page]} |} :: docs)
          end
      end
  end.

Section IndexGraph.

Variable lib : urllib.

(** The crawler that [crawl(tenant, starter_urls, hops)] constructs: the
    allowed domains are the set of the starters' network locations and the
    tenant names the storage folder. *)
Definition tenant_crawler (tenant : string) (starters : list string) (hopsv : Z)
    : crawler :=
  {| starter_urls := starters;
     hops := hopsv;
     allowed_domains := elements (list_to_set (netloc lib <$> starters) : gset string);
     storage_folder := tenant |}.

End IndexGraph.

(** ** More vocabulary: the frontier and the files *)

(** Breadth-first order: along the queue the depths never decrease and
    never differ by more than one. *)
Definition bfs_ordered (q : list (string * Z)) : Prop :=
  forall i j e1 e2, (i <= j)%nat -> q !! i = Some e1 -> q !! j = Some e2 ->
    e1.2 <= e2.2 <= e1.2 + 1.

(** What a record says about the navigation it comes from. *)
Definition record_of (self : crawler) (w : world) (k : nat) (u : string) (c : text)
    : page_record :=
  {| url := u; local_filepath := save_path self w k;
     size := Z.of_nat (length c) |}.

(** ** More concrete collaborators *)

Module MoreExamples.
Import Examples.

(** File names that never repeat: the [k]-th name is [k] letters long. *)
Fixpoint tally (k : nat) : string :=
  match k with
  | O => ""
  | S k' => String "a" (tally k')
  end.

(** Every page answers 200 with the content ["hi"] and a link to [b]; each
    save gets a name of its own. *)
Definition fresh_names : world :=
  {| launch := Ok tt;
     goto := fun _ _ => Ok (page_with 200 [Ok (Some b_url)]);
     uuid4_hex := tally;
     open_w := fun _ _ => Ok tt;
     write_w := fun _ _ _ => Ok tt;
     flushed := fun _ => 0%nat |}.

(** The disk fills up when the first file has one byte. *)
Definition disk_full : world :=
  {| launch := Ok tt;
     goto := fun _ _ => Ok (page_with 200 []);
     uuid4_hex := uuids;
     open_w := fun _ _ => Ok tt;
     write_w := fun k _ _ => match k with O => Raise OSError | _ => Ok tt end;
     flushed := fun _ => 1%nat |}.

Definition no_hops : crawler := site (-1) [a_url; b_url].

(** A starter URL written without its scheme. *)
Definition bare_url : string := "example.com/page".

(** A configuration with a user id, and two documents, the second of which
    already has one. *)
Definition alice_config : gmap string (gmap string string) :=
  {["configurable" := {["user_id" := "alice"]}]}.

Definition two_docs : list (document string) :=
  [ {| page_content := hi; metadata := {["url" := a_url]} |};
    {| page_content := e_acute; metadata := {["user_id" := "bob"]} |} ].

(** The content ["a\r\nb"]. *)
Definition crlf : text := [97; 13; 10; 98]%N.

End MoreExamples.

(** * Facts about the model *)

(** ** The string helpers *)

Section PyStrFacts.

Lemma endswith_spec s suffix :
  PyStr.endswith s suffix = true <-> exists p, s = p +:+ suffix.
Proof.
  induction s as [|a s IH]; cbn [PyStr.endswith].
  - rewrite orb_false_r, String.eqb_eq. split.
    + intros <-. now exists "".
    + intros [p Hp]. destruct p; simpl in Hp; [done | discriminate].
  - rewrite orb_true_iff, String.eqb_eq, IH. split.
    + intros [<- | [p ->]]; [now exists "" | now exists (String a p)].
    + intros [p Hp]. destruct p as [|b p].
      * now left.
      * right. exists p. now injection Hp.
Qed.

Lemma string_length_app s t :
  String.length (s +:+ t) = (String.length s + String.length t)%nat.
Proof. induction s as [|a s IH]; simpl; [done | now rewrite IH]. Qed.

Lemma count_app c s t :
  PyStr.count c (s +:+ t) = (PyStr.count c s + PyStr.count c t)%nat.
Proof. induction s as [|a s IH]; simpl; [done | rewrite IH; lia]. Qed.

Lemma rstrip_snoc c s : PyStr.rstrip c (s +:+ String c "") = PyStr.rstrip c s.
Proof.
  induction s as [|a s IH]; simpl.
  - now rewrite Ascii.eqb_refl.
  - now rewrite IH.
Qed.

Lemma rstrip_fixed c s :
  PyStr.endswith s (String c "") = false -> PyStr.rstrip c s = s.
Proof.
  induction s as [|a s IH]; [done |].
  cbn [PyStr.endswith]. rewrite orb_false_iff. intros [Hs Ht].
  destruct s as [|b s].
  - simpl. destruct (Ascii.eqb a c) eqn:E; [| done].
    apply Ascii.eqb_eq in E. subst. simpl in Hs.
    now rewrite Ascii.eqb_refl in Hs.
  - cbn [PyStr.rstrip]. cbn [PyStr.rstrip] in IH. rewrite (IH Ht). done.
Qed.

Lemma endswith_snoc s c : PyStr.endswith (s +:+ String c "") (String c "") = true.
Proof. apply endswith_spec. now exists s. Qed.

End PyStrFacts.

Example count_root : PyStr.count "/" "http://x.com" = 2%nat.
Proof. reflexivity. Qed.

Example rstrip_many : PyStr.rstrip "/" "http://x.com/a//" = "http://x.com/a".
Proof. reflexivity. Qed.

Example endswith_empty : PyStr.endswith "abc" "" = true.
Proof. reflexivity. Qed.

Example path_join_store :
  PyStr.path_join "store" "f.html" = "store/f.html" /\
  PyStr.path_join "store/" "f.html" = "store/f.html" /\
  PyStr.path_join "" "f.html" = "f.html".
Proof. repeat split. Qed.

(** ** UTF-8 *)

Lemma utf8_encode_ascii (s : text) : is_ascii s -> utf8_encode s = Ok s.
Proof.
  induction 1 as [|c s Hc _ IH]; [done |].
  cbn [utf8_encode]. unfold utf8_char.
  apply N.ltb_lt in Hc. rewrite Hc, IH. done.
Qed.

Lemma utf8_char_length c bs :
  utf8_char c = Some bs -> (1 <= length bs <= 4)%nat.
Proof.
  unfold utf8_char. intros H.
  repeat match type of H with
         | (if ?b then _ else _) = _ => destruct b
         end; inversion H; simpl; lia.
Qed.

Lemma utf8_encode_length (s : text) bytes :
  utf8_encode s = Ok bytes -> (length s <= length bytes)%nat.
Proof.
  revert bytes. induction s as [|c s IH]; intros bytes H.
  - inversion H. done.
  - cbn [utf8_encode] in H.
    destruct (utf8_char c) as [bs|] eqn:Hc; [| discriminate].
    destruct (utf8_encode s) as [rest|e]; [| discriminate].
    inversion H; subst. rewrite length_app. simpl.
    pose proof (utf8_char_length _ _ Hc). pose proof (IH _ eq_refl). lia.
Qed.

Lemma utf8_char_wide c bs :
  utf8_char c = Some bs -> (128 <= c)%N -> (2 <= length bs)%nat.
Proof.
  unfold utf8_char. intros H Hc.
  destruct (N.ltb_spec c 128); [lia |].
  repeat match type of H with
         | (if ?b then _ else _) = _ => destruct b
         end; inversion H; simpl; lia.
Qed.

Lemma utf8_encode_longer (s : text) bytes :
  utf8_encode s = Ok bytes -> ~ is_ascii s -> (length s < length bytes)%nat.
Proof.
  intros Henc Hna.
  assert (Hex : Exists (fun c => (128 <= c)%N) s).
  { apply not_Forall_Exists in Hna; [| intros x; apply N.lt_dec].
    eapply Exists_impl; [exact Hna |]. simpl. intros x Hx. lia. }
  clear Hna. revert bytes Henc.
  induction Hex as [c s Hc | c s _ IH]; intros bytes Henc;
    cbn [utf8_encode] in Henc;
    destruct (utf8_char c) as [bs|] eqn:Hbs; try discriminate;
    destruct (utf8_encode s) as [rest|e] eqn:Hrest; try discriminate;
    inversion Henc; subst; rewrite length_app; simpl.
  - pose proof (utf8_char_wide _ _ Hbs Hc).
    pose proof (utf8_encode_length _ _ Hrest). lia.
  - pose proof (utf8_char_length _ _ Hbs).
    pose proof (IH rest eq_refl). lia.
Qed.

(** ** One turn of the loop *)

Lemma set_queue_same st : set_queue (queue st) st = st.
Proof. now destruct st. Qed.

Lemma set_queue_twice q q' st : set_queue q (set_queue q' st) = set_queue q st.
Proof. done. Qed.

Lemma fetched_app out out' : fetched (out ++ out') = fetched out ++ fetched out'.
Proof.
  induction out as [|l out IH]; [done |].
  destruct l; simpl; now rewrite IH.
Qed.

Section Steps.

Variable lib : urllib.
Variable self : crawler.
Variable w : world.

Local Abbreviation normalize_url := (normalize_url lib).
Local Abbreviation is_allowed := (is_allowed lib self).
Local Abbreviation save_page_content := (save_page_content self w).
Local Abbreviation follow_link := (follow_link lib self).
Local Abbreviation visit := (visit lib self w).
Local Abbreviation iteration := (iteration lib self w).
Local Abbreviation crawl_loop := (crawl_loop lib self w).
Local Abbreviation init := (init lib self).
Local Abbreviation run := (run lib self w).
Local Abbreviation fetch_ok := (fetch_ok w).
Local Abbreviation persisted := (persisted self w).

Local Abbreviation save_path := (save_path self w).

Lemma save_page_content_spec k c u st :
  save_page_content k c u st =
    match open_w w k (save_path k) with
    | Raise e => (Raise e, st)
    | Ok _ =>
        let st1 := set_disk (<[save_path k := []]> (disk st)) st in
        match utf8_encode c with
        | Raise e => (Raise e, st1)
        | Ok bytes =>
            let st2 :=
              set_disk (<[save_path k := take (flushed w k) bytes]> (disk st1)) st1 in
            match write_w w k (save_path k) bytes with
            | Raise e => (Raise e, st2)
            | Ok _ =>
                (Ok tt,
                 set_crawled_pages
                   (crawled_pages st ++
                      [{| url := u; local_filepath := save_path k;
                          size := Z.of_nat (length c) |}])
                   (set_disk (<[save_path k := bytes]> (disk st2)) st2))
            end
        end
    end.
Proof.
  unfold save_page_content, save_path, bind, lift, modify.
  destruct (open_w w k _); [| done]. simpl.
  destruct (utf8_encode c) as [bytes|]; [| done]. simpl.
  destruct (write_w w k _ bytes); done.
Qed.

Lemma save_result_stateless k c u st st0 :
  (save_page_content k c u st).1 = (save_page_content k c u st0).1.
Proof.
  rewrite !save_page_content_spec.
  destruct (open_w w k _); [| done]. simpl.
  destruct (utf8_encode c) as [bytes|]; [| done]. simpl.
  destruct (write_w w k _ bytes); done.
Qed.

Lemma save_page_content_frame k c u st r st' :
  save_page_content k c u st = (r, st') ->
  queue st' = queue st /\ visited_urls st' = visited_urls st /\
  stdout st' = stdout st /\
  match r with
  | Ok _ => exists rec, crawled_pages st' = crawled_pages st ++ [rec] /\ url rec = u
  | Raise _ => crawled_pages st' = crawled_pages st
  end.
Proof.
  rewrite save_page_content_spec.
  destruct (open_w w k _); [| intros [= <- <-]; done]. simpl.
  destruct (utf8_encode c) as [bytes|]; [| intros [= <- <-]; done]. simpl.
  destruct (write_w w k _ bytes); intros [= <- <-]; simpl; eauto 10.
Qed.

Lemma link_error_accepts visited u d link e :
  link_error lib u link = Some e -> accepts lib self visited u d link = [].
Proof.
  unfold link_error, accepts. destruct link as [[h|]|]; try done.
  destruct (String.eqb h ""); [done |].
  destruct (urljoin lib u h); done.
Qed.

Lemma follow_link_spec u d link st :
  follow_link u d link st =
    (result_of (link_error lib u link),
     set_queue (queue st ++ accepts lib self (visited_urls st) u d link) st).
Proof.
  unfold follow_link, link_error, accepts, bind, lift, gets, modify, ret.
  destruct link as [[h|]|e]; simpl; rewrite ?app_nil_r, ?set_queue_same; try done.
  destruct (String.eqb h ""); simpl; rewrite ?app_nil_r, ?set_queue_same; try done.
  destruct (urljoin lib u h) as [j|e]; simpl; rewrite ?app_nil_r, ?set_queue_same; try done.
  destruct (_ && _); simpl; rewrite ?app_nil_r, ?set_queue_same; done.
Qed.

Lemma for_each_spec u d links st :
  for_each links (follow_link u d) st =
    (result_of (walk lib u links).2,
     set_queue
       (queue st ++ flat_map (accepts lib self (visited_urls st) u d) (walk lib u links).1)
       st).
Proof.
  revert st. induction links as [|l ls IH]; intros st.
  - simpl. unfold ret. now rewrite app_nil_r, set_queue_same.
  - cbn [for_each walk]. unfold bind at 1. rewrite follow_link_spec.
    destruct (link_error lib u l) as [e|] eqn:He; simpl.
    + now rewrite (link_error_accepts _ _ _ _ _ He).
    + rewrite IH. destruct (walk lib u ls) as [handled r]. simpl.
      now rewrite <- app_assoc.
Qed.

Lemma accepts_allowed visited u d link :
  Forall (fun e => is_allowed e.1 = true /\ e.2 = d + 1 /\ e.1 ∉ visited)
         (accepts lib self visited u d link).
Proof.
  unfold accepts. destruct link as [[h|]|]; try done.
  destruct (String.eqb h ""); [done |].
  destruct (urljoin lib u h) as [j|]; [| done].
  destruct (is_allowed _) eqn:Ha; [| done]. simpl.
  case_bool_decide; simpl; [done |]. repeat constructor; done.
Qed.

Lemma flat_map_accepts_allowed visited u d links :
  Forall (fun e => is_allowed e.1 = true /\ e.2 = d + 1 /\ e.1 ∉ visited)
         (flat_map (accepts lib self visited u d) links).
Proof.
  induction links as [|l ls IH]; simpl; [done |].
  apply Forall_app. split; [apply accepts_allowed | done].
Qed.


(** What the [try] body can change: nothing is printed as a [Crawling]
    line, the key is marked exactly when the fetch succeeded, the queue only
    grows by filtered links one hop further, and at most one record is
    appended. *)
Lemma visit_frame k u nu d st r st' :
  visit k u nu d st = (r, st') ->
  fetched (stdout st') = fetched (stdout st) /\
  visited_urls st' =
    (if fetch_ok k u then {[nu]} ∪ visited_urls st else visited_urls st) /\
  (exists new, queue st' = queue st ++ new /\
     Forall (fun e => is_allowed e.1 = true /\ e.2 = d + 1) new) /\
  (crawled_pages st' = crawled_pages st \/
   (exists rec, crawled_pages st' = crawled_pages st ++ [rec] /\ url rec = u /\
      fetch_ok k u = true /\ persisted k u)).
Proof.
  unfold visit, fetch_ok. unfold bind at 1. unfold lift at 1.
  destruct (goto w k u) as [p|e] eqn:Hgoto.
  2:{ intros [= <- <-]. repeat split; eauto.
      exists []. now rewrite app_nil_r. }
  destruct (bad_status (status p)) eqn:Hbad.
  { unfold print, modify. intros [= <- <-]. simpl.
    rewrite fetched_app, app_nil_r. repeat split; eauto.
    exists []. now rewrite app_nil_r. }
  unfold bind at 1, modify at 1. unfold bind at 1, lift at 1.
  destruct (content p) as [c|e] eqn:Hc.
  2:{ intros [= <- <-]. simpl. repeat split; eauto.
      exists []. now rewrite app_nil_r. }
  unfold bind at 1.
  destruct (save_page_content k c u _) as [rs st1] eqn:Hsave.
  pose proof (save_page_content_frame _ _ _ _ _ _ Hsave) as (Hq & Hv & Ho & Hp).
  simpl in Hq, Hv, Ho, Hp.
  destruct rs as [[]|e].
  2:{ intros [= <- <-]. rewrite Hq, Hv, Ho, Hp. repeat split; eauto.
      exists []. now rewrite app_nil_r. }
  assert (Hpers : persisted k u).
  { exists p, c. repeat split; try done. intros st0.
    rewrite (save_result_stateless _ _ _ st0
               (set_visited_urls ({[nu]} ∪ visited_urls st) st)).
    now rewrite Hsave. }
  unfold bind at 1, lift at 1.
  destruct (element_handles p) as [links|e].
  2:{ intros [= <- <-]. rewrite Hq, Hv, Ho. repeat split; eauto.
      - exists []. now rewrite app_nil_r.
      - right. destruct Hp as (rec & Hp & Hu). exists rec. done. }
  unfold bind at 1. rewrite for_each_spec.
  assert (Hfin : forall r2 st2,
            (r2, st2) = (r, st') ->
            st2 = set_queue (queue st1 ++
                    flat_map (accepts lib self (visited_urls st1) u d)
                             (walk lib u links).1) st1 ->
            fetched (stdout st') = fetched (stdout st) /\
            visited_urls st' = {[nu]} ∪ visited_urls st /\
            (exists new, queue st' = queue st ++ new /\
               Forall (fun e => is_allowed e.1 = true /\ e.2 = d + 1) new) /\
            (crawled_pages st' = crawled_pages st \/
             (exists rec, crawled_pages st' = crawled_pages st ++ [rec] /\ url rec = u /\
                true = true /\ persisted k u))).
  { intros r2 st2 [= -> ->] ->. simpl. rewrite Hq, Hv, Ho. repeat split; eauto.
    - eexists. split; [done |].
      eapply Forall_impl; [apply flat_map_accepts_allowed |].
      simpl. intros e (? & ? & ?). done.
    - right. destruct Hp as (rec & Hp & Hu). exists rec. done. }
  destruct (walk lib u links).2 as [e|]; simpl.
  - intros H. eapply Hfin; [exact H | done].
  - unfold lift. destruct (close p); intros H; eapply Hfin; done.
Qed.

Lemma iteration_empty st : queue st = [] -> iteration st = st.
Proof. unfold iteration. now intros ->. Qed.

Lemma iteration_skip st u d rest :
  queue st = (u, d) :: rest ->
  normalize_url u ∈ visited_urls st \/ hops self < d ->
  iteration st = set_queue rest st.
Proof.
  unfold iteration. intros -> H. simpl.
  destruct H as [H | H].
  - now rewrite bool_decide_eq_true_2.
  - apply Z.gtb_lt in H. rewrite H. now rewrite orb_true_r.
Qed.

Lemma iteration_attempt st u d rest :
  queue st = (u, d) :: rest ->
  normalize_url u ∉ visited_urls st -> d <= hops self ->
  iteration st =
    match visit (length (fetched (stdout st))) u (normalize_url u) d
                (set_stdout (stdout st ++ [Crawling u]) (set_queue rest st)) with
    | (Ok _, st') => st'
    | (Raise e, st') => set_stdout (stdout st' ++ [FailedExn u e]) st'
    end.
Proof.
  unfold iteration. intros -> Hv Hd. simpl.
  rewrite bool_decide_eq_false_2 by done.
  destruct (d >? hops self) eqn:E; [apply Z.gtb_lt in E; lia | done].
Qed.

(** A turn either discards the head of the queue, or navigates to it. *)
Lemma iteration_step st u d rest :
  queue st = (u, d) :: rest ->
  ((normalize_url u ∈ visited_urls st \/ hops self < d) /\
   iteration st = set_queue rest st) \/
  ((normalize_url u ∉ visited_urls st) /\ d <= hops self /\
   let k := length (fetched (stdout st)) in
   let st' := iteration st in
   fetched (stdout st') = fetched (stdout st) ++ [u] /\
   visited_urls st' =
     (if fetch_ok k u then {[normalize_url u]} ∪ visited_urls st
      else visited_urls st) /\
   (exists new, queue st' = rest ++ new /\
      Forall (fun e => is_allowed e.1 = true /\ e.2 = d + 1) new) /\
   (crawled_pages st' = crawled_pages st \/
    (exists rec, crawled_pages st' = crawled_pages st ++ [rec] /\ url rec = u /\
       fetch_ok k u = true /\ persisted k u))).
Proof.
  intros Hq.
  destruct (decide (normalize_url u ∈ visited_urls st)) as [Hin | Hin].
  { left. split; [now left |]. eapply iteration_skip; eauto. }
  destruct (Z.lt_ge_cases (hops self) d) as [Hd | Hd].
  { left. split; [now right |]. eapply iteration_skip; eauto. }
  right. split; [done |]. split; [done |]. cbv zeta.
  rewrite (iteration_attempt _ _ _ _ Hq Hin Hd).
  destruct (visit _ _ _ _ _) as [r st'] eqn:Hvisit.
  apply visit_frame in Hvisit as (Hf & Hv & Hn & Hp). simpl in *.
  rewrite fetched_app in Hf. simpl in Hf.
  destruct r as [[]|e]; simpl; rewrite ?fetched_app, ?app_nil_r; done.
Qed.

(** ** The bookkeeping invariant *)

Lemma coherent_init : coherent lib self w init.
Proof.
  unfold coherent, init. simpl. repeat split.
  - intros H. set_solver.
  - intros (i & u & H & _). done.
  - intros i j u v _ H. done.
  - intros r H. set_solver.
Qed.

Lemma coherent_iteration st :
  coherent lib self w st -> coherent lib self w (iteration st).
Proof.
  intros (H1 & H2 & H3).
  destruct (queue st) as [|[u d] rest] eqn:Hq.
  { rewrite iteration_empty by done. done. }
  destruct (iteration_step _ _ _ _ Hq) as [[_ ->] | (Hin & Hd & Hstep)].
  { done. }
  cbv zeta in Hstep. destruct Hstep as (Hf & Hv & _ & Hp).
  unfold coherent. rewrite Hf, Hv. cbv zeta. repeat split.
  - intros Hx.
    assert (Hcase : x ∈ visited_urls st \/
              (fetch_ok (length (fetched (stdout st))) u = true /\ x = normalize_url u)).
    { destruct (fetch_ok _ u); [| now left]. set_solver. }
    destruct Hcase as [Hx' | [Hok ->]].
    + apply H1 in Hx' as (i & v & Hi & Hok & ->).
      exists i, v. split; [| done]. now apply lookup_app_l_Some.
    + exists (length (fetched (stdout st))), u. split; [| done].
      rewrite lookup_app_r by lia. now rewrite Nat.sub_diag.
  - intros (i & v & Hi & Hok & ->).
    apply lookup_app_Some in Hi as [Hi | [Hlen Hi]].
    + assert (normalize_url v ∈ visited_urls st) by (apply H1; eauto).
      destruct (fetch_ok _ u); set_solver.
    + apply list_lookup_singleton_Some in Hi as [Hi ->].
      replace i with (length (fetched (stdout st))) in Hok by lia.
      rewrite Hok. set_solver.
  - intros i j a b Hij Hi Hj Hok.
    apply lookup_app_Some in Hj as [Hj | [Hlen Hj]].
    + apply lookup_lt_Some in Hj as Hlt.
      rewrite lookup_app_l in Hi by lia. eauto.
    + apply list_lookup_singleton_Some in Hj as [Hj ->].
      rewrite lookup_app_l in Hi by lia.
      intros Heq. apply Hin. rewrite <- Heq. apply H1. eauto.
  - intros r Hr.
    assert (Hcase : r ∈ crawled_pages st \/
              (url r = u /\ persisted (length (fetched (stdout st))) u)).
    { destruct Hp as [Hp | (rec & Hp & Hu & _ & Hpers)];
        rewrite Hp in Hr; [now left |].
      apply elem_of_app in Hr as [Hr | Hr]; [now left |].
      apply list_elem_of_singleton in Hr as ->. now right. }
    destruct Hcase as [Hr' | [Hu Hpers]].
    + destruct (H3 _ Hr') as (i & Hi & Hpers). exists i. split; [| done].
      now apply lookup_app_l_Some.
    + exists (length (fetched (stdout st))). rewrite Hu. split; [| done].
      rewrite lookup_app_r by lia. now rewrite Nat.sub_diag.
Qed.

Lemma coherent_run n : coherent lib self w (run n).
Proof.
  induction n as [|n IH]; [apply coherent_init |].
  unfold run. simpl. apply coherent_iteration, IH.
Qed.

(** ** The domain filter on the frontier *)

Lemma filtered_init : filtered lib self init.
Proof.
  unfold filtered, init. simpl. split; [| done].
  apply Forall_forall. intros [u d] Hin.
  apply list_elem_of_In, in_map_iff in Hin as (s & [= <- <-] & Hs).
  left. simpl. split; [done |].
  apply list_elem_of_fmap. exists s. split; [done |]. now apply list_elem_of_In.
Qed.

Lemma filtered_iteration st : filtered lib self st -> filtered lib self (iteration st).
Proof.
  intros [Hq Hf].
  destruct (queue st) as [|[u d] rest] eqn:Eq.
  { rewrite iteration_empty by done. split; [now rewrite Eq | done]. }
  apply Forall_cons in Hq as [Hu Hrest].
  destruct (iteration_step _ _ _ _ Eq) as [[_ ->] | (_ & _ & Hstep)].
  { split; done. }
  cbv zeta in Hstep. destruct Hstep as (Hfe & _ & (new & Hnew & Hall) & _).
  unfold filtered. rewrite Hfe, Hnew. split.
  - apply Forall_app. split; [done |].
    eapply Forall_impl; [exact Hall |]. intros [v dv] [Ha Hd]. simpl in *.
    right. simpl. split; [| done].
    destruct Hu as [[Hu _] | [Hu _]]; simpl in Hu; lia.
  - apply Forall_app. split; [done |]. apply Forall_singleton.
    destruct Hu as [[_ Hu] | [_ Hu]]; [now left | now right].
Qed.

Lemma filtered_run n : filtered lib self (run n).
Proof.
  induction n as [|n IH]; [apply filtered_init |].
  unfold run. simpl. apply filtered_iteration, IH.
Qed.

(** ** Records and printed lines only accumulate *)

Lemma iteration_pages_prefix st :
  crawled_pages st `prefix_of` crawled_pages (iteration st).
Proof.
  destruct (queue st) as [|[u d] rest] eqn:Eq.
  { now rewrite iteration_empty. }
  destruct (iteration_step _ _ _ _ Eq) as [[_ ->] | (_ & _ & Hstep)]; [done |].
  cbv zeta in Hstep. destruct Hstep as (_ & _ & _ & [-> | (rec & -> & _)]).
  - done.
  - now apply prefix_app_r.
Qed.

Lemma iter_pages_prefix m st :
  crawled_pages st `prefix_of` crawled_pages (Nat.iter m iteration st).
Proof.
  induction m as [|m IH]; [done |]. simpl.
  etrans; [exact IH | apply iteration_pages_prefix].
Qed.

Lemma iteration_visited_mono st : visited_urls st ⊆ visited_urls (iteration st).
Proof.
  destruct (queue st) as [|[u d] rest] eqn:Eq.
  { now rewrite iteration_empty. }
  destruct (iteration_step _ _ _ _ Eq) as [[_ ->] | (_ & _ & Hstep)]; [done |].
  cbv zeta in Hstep. destruct Hstep as (_ & -> & _).
  destruct (fetch_ok _ _); set_solver.
Qed.

(** ** The loop ends *)

Lemma crawl_loop_iter fuel st st' :
  crawl_loop fuel st = Some st' ->
  st' = Nat.iter fuel iteration st /\ queue st' = [].
Proof.
  revert st. induction fuel as [|fuel IH]; intros st; simpl.
  - destruct (queue st) eqn:Eq; [| done]. now intros [= <-].
  - destruct (queue st) eqn:Eq.
    + intros [= <-]. split; [| done].
      clear IH. induction fuel as [|fuel IH]; simpl.
      * now rewrite iteration_empty.
      * rewrite <- IH. now rewrite iteration_empty.
    + intros H. apply IH in H as [-> H]. split; [| done].
      symmetry. apply (Nat.iter_succ_r fuel iteration st).
Qed.

Lemma crawl_loop_more fuel st st' :
  crawl_loop fuel st = Some st' -> crawl_loop (S fuel) st = Some st'.
Proof.
  revert st. induction fuel as [|fuel IH]; intros st.
  - simpl. destruct (queue st); done.
  - cbn [crawl_loop]. destruct (queue st); [done |]. apply IH.
Qed.

Lemma crawl_loop_step fuel st :
  queue st <> [] -> crawl_loop (S fuel) st = crawl_loop fuel (iteration st).
Proof. simpl. destruct (queue st); done. Qed.

Lemma height_bound (q : list (string * Z)) :
  exists n, Forall (fun e => (height self e < n)%nat) q.
Proof.
  induction q as [|e q [n IH]].
  - now exists 0%nat.
  - exists (S (Nat.max n (height self e))). constructor; [lia |].
    eapply Forall_impl; [exact IH |]. simpl. lia.
Qed.

(** The entries of the queue lie below a level [n]; the turns spent on a
    front part [q1] only append entries of a lower level. *)
Lemma crawl_loop_ends_below (n : nat) :
  forall st, Forall (fun e => (height self e < n)%nat) (queue st) ->
  exists fuel st', crawl_loop fuel st = Some st'.
Proof.
  induction n as [|n IHn]; intros st Hall.
  { destruct (queue st) as [|e q] eqn:Eq.
    - exists 0%nat, st. simpl. now rewrite Eq.
    - apply Forall_cons in Hall as [H _]. lia. }
  assert (Hfront : forall q1 q2 st,
            queue st = q1 ++ q2 ->
            Forall (fun e => (height self e < S n)%nat) q1 ->
            Forall (fun e => (height self e < n)%nat) q2 ->
            exists fuel st', crawl_loop fuel st = Some st').
  { clear st Hall. induction q1 as [|[u d] q1 IHq]; intros q2 st Eq H1 H2.
    - apply IHn. now rewrite Eq.
    - apply Forall_cons in H1 as [Hu H1]. simpl in Eq.
      assert (Hnext : exists new, queue (iteration st) = q1 ++ (q2 ++ new) /\
                Forall (fun e => (height self e < n)%nat) new).
      { destruct (iteration_step _ _ _ _ Eq) as [[_ ->] | (_ & Hd & Hstep)].
        - exists []. simpl. now rewrite app_nil_r.
        - cbv zeta in Hstep. destruct Hstep as (_ & _ & (new & -> & Hnew) & _).
          exists new. split; [now rewrite app_assoc |].
          eapply Forall_impl; [exact Hnew |]. intros [v dv] [_ Hdv].
          unfold height in *. simpl in *. lia. }
      destruct Hnext as (new & Eq' & Hnew).
      destruct (IHq (q2 ++ new) (iteration st) Eq' H1) as (fuel & st' & Hrun).
      { now apply Forall_app. }
      exists (S fuel), st'. rewrite crawl_loop_step; [done |]. now rewrite Eq. }
  apply (Hfront (queue st) [] st); [now rewrite app_nil_r | done | done].
Qed.

Lemma crawl_loop_ends st : exists fuel st', crawl_loop fuel st = Some st'.
Proof.
  destruct (height_bound (queue st)) as [n Hn].
  eapply crawl_loop_ends_below, Hn.
Qed.

Lemma crawl_loop_run fuel st' :
  crawl_loop fuel init = Some st' -> st' = run fuel /\ queue st' = [].
Proof. apply crawl_loop_iter. Qed.

Lemma run_add n m : run (n + m) = Nat.iter m iteration (run n).
Proof. unfold run. rewrite Nat.add_comm. apply Nat.iter_add. Qed.

Lemma crawl_loop_fuel fuel fuel' st st' :
  crawl_loop fuel st = Some st' -> (fuel <= fuel')%nat ->
  crawl_loop fuel' st = Some st'.
Proof.
  intros H Hle. induction Hle as [|m _ IH]; [done |]. now apply crawl_loop_more.
Qed.

(** When the browser starts, [crawl] returns normally, from every run. *)
Lemma crawl_returns :
  launch w = Ok tt ->
  forall n, exists fuel st,
    (n <= fuel)%nat /\ crawl lib self w fuel = Some (Ok tt, st) /\
    st = run fuel /\ queue st = [].
Proof.
  intros Hl n. destruct (crawl_loop_ends init) as (fuel & st & Hrun).
  exists (Nat.max n fuel), st.
  assert (Hrun' : crawl_loop (Nat.max n fuel) init = Some st).
  { eapply crawl_loop_fuel; [exact Hrun | lia]. }
  split; [lia |]. unfold crawl. rewrite Hl, Hrun'. split; [done |].
  now apply crawl_loop_run.
Qed.

(** ** The outcomes of the [try] body, case by case *)

Lemma visit_goto_raises k u nu d st e :
  goto w k u = Raise e -> visit k u nu d st = (Raise e, st).
Proof. unfold visit, bind, lift. now intros ->. Qed.

Lemma visit_bad_status k u nu d st p :
  goto w k u = Ok p -> bad_status (status p) = true ->
  visit k u nu d st =
    (Ok tt, set_stdout (stdout st ++ [FailedStatus u (status p)]) st).
Proof. unfold visit, bind, lift. now intros -> ->. Qed.

Lemma visit_content_raises k u nu d st p e :
  goto w k u = Ok p -> bad_status (status p) = false -> content p = Raise e ->
  visit k u nu d st = (Raise e, set_visited_urls ({[nu]} ∪ visited_urls st) st).
Proof. unfold visit, bind, lift, modify. now intros -> -> ->. Qed.

Lemma visit_save_raises k u nu d st p c e st1 :
  goto w k u = Ok p -> bad_status (status p) = false -> content p = Ok c ->
  save_page_content k c u (set_visited_urls ({[nu]} ∪ visited_urls st) st)
    = (Raise e, st1) ->
  visit k u nu d st = (Raise e, st1).
Proof. unfold visit, bind, lift, modify. now intros -> -> -> ->. Qed.

Lemma visit_saved k u nu d st p c st1 :
  goto w k u = Ok p -> bad_status (status p) = false -> content p = Ok c ->
  save_page_content k c u (set_visited_urls ({[nu]} ∪ visited_urls st) st)
    = (Ok tt, st1) ->
  visit k u nu d st =
    match element_handles p with
    | Raise e => (Raise e, st1)
    | Ok links =>
        let st2 :=
          set_queue
            (queue st1 ++
               flat_map (accepts lib self (visited_urls st1) u d) (walk lib u links).1)
            st1 in
        match (walk lib u links).2 with
        | Some e => (Raise e, st2)
        | None => (close p, st2)
        end
    end.
Proof.
  unfold visit. unfold bind at 1. unfold lift at 1. intros -> ->.
  unfold bind at 1, modify at 1. unfold bind at 1, lift at 1. intros ->.
  unfold bind at 1. intros ->.
  unfold bind at 1, lift at 1. destruct (element_handles p) as [links|e]; [| done].
  unfold bind at 1. rewrite for_each_spec.
  destruct (walk lib u links).2; simpl; [done |]. unfold lift. done.
Qed.

Lemma walk_stops u links handled e :
  walk lib u links = (handled, Some e) ->
  exists bad rest,
    links = handled ++ bad :: rest /\
    Forall (fun l => link_error lib u l = None) handled /\
    link_error lib u bad = Some e.
Proof.
  revert handled. induction links as [|l ls IH]; intros handled; simpl; [done |].
  destruct (link_error lib u l) as [e'|] eqn:He.
  - intros [= <- <-]. exists l, ls. done.
  - destruct (walk lib u ls) as [h r]. intros [= <- ->].
    destruct (IH h eq_refl) as (bad & rest & -> & Hh & Hb).
    exists bad, rest. repeat split; [| done]. now constructor.
Qed.

Lemma walk_until u handled bad rest e :
  Forall (fun l => link_error lib u l = None) handled ->
  link_error lib u bad = Some e ->
  walk lib u (handled ++ bad :: rest) = (handled, Some e).
Proof.
  intros Hh Hb. induction Hh as [|l ls Hl _ IH]; simpl.
  - now rewrite Hb.
  - now rewrite Hl, IH.
Qed.

Lemma iteration_fetched_prefix st :
  fetched (stdout st) `prefix_of` fetched (stdout (iteration st)).
Proof.
  destruct (queue st) as [|[u d] rest] eqn:Eq.
  { now rewrite iteration_empty. }
  destruct (iteration_step _ _ _ _ Eq) as [[_ ->] | (_ & _ & Hstep)]; [done |].
  cbv zeta in Hstep. destruct Hstep as (-> & _). now apply prefix_app_r.
Qed.

Lemma iter_fetched_prefix m st :
  fetched (stdout st) `prefix_of` fetched (stdout (Nat.iter m iteration st)).
Proof.
  induction m as [|m IH]; [done |]. simpl.
  etrans; [exact IH | apply iteration_fetched_prefix].
Qed.

(** Whatever happens inside the [try] block, the turn ends normally: the
    rest of the queue is kept, in order, and the loop runs on to its end. *)
Lemma every_turn_goes_on st u d rest :
  queue st = (u, d) :: rest ->
  (exists new, queue (iteration st) = rest ++ new) /\
  crawled_pages st `prefix_of` crawled_pages (iteration st) /\
  visited_urls st ⊆ visited_urls (iteration st) /\
  (forall fuel, crawl_loop (S fuel) st = crawl_loop fuel (iteration st)) /\
  exists fuel fin, crawl_loop fuel (iteration st) = Some fin.
Proof.
  intros Hq. repeat split.
  - destruct (iteration_step _ _ _ _ Hq) as [[_ ->] | (_ & _ & Hstep)].
    + exists []. simpl. now rewrite app_nil_r.
    + cbv zeta in Hstep. destruct Hstep as (_ & _ & (new & Hnew & _) & _). eauto.
  - apply iteration_pages_prefix.
  - apply iteration_visited_mono.
  - intros fuel. apply crawl_loop_step. now rewrite Hq.
  - apply crawl_loop_ends.
Qed.

(** After [i] turns the queue starts with what is left of it from position
    [i] on: the entries are dequeued one per turn, in their order. *)
Lemma queue_after_turns i st :
  (i <= length (queue st))%nat ->
  exists new, queue (Nat.iter i iteration st) = drop i (queue st) ++ new.
Proof.
  induction i as [|i IH]; intros Hlen.
  - exists []. simpl. now rewrite drop_0, app_nil_r.
  - destruct IH as (new & Hnew); [lia |].
    destruct (lookup_lt_is_Some_2 (queue st) i ltac:(lia)) as [[v dv] Hi].
    rewrite (drop_S _ _ _ Hi) in Hnew. simpl in Hnew.
    destruct (every_turn_goes_on _ _ _ _ Hnew) as ((new' & Hq) & _).
    exists (new ++ new'). simpl. rewrite Hq. now rewrite app_assoc.
Qed.

Lemma turns_reach_each_entry i st e :
  queue st !! i = Some e ->
  exists tail, queue (Nat.iter i iteration st) = e :: tail.
Proof.
  intros Hi. destruct (queue_after_turns i st) as (new & Hnew).
  { apply lookup_lt_Some in Hi. lia. }
  rewrite (drop_S _ _ _ Hi) in Hnew. eauto.
Qed.

Lemma crawl_loop_completes st :
  exists fuel fin,
    crawl_loop fuel st = Some fin /\
    fin = Nat.iter fuel iteration st /\ queue fin = [].
Proof.
  destruct (crawl_loop_ends st) as (fuel & fin & Hloop).
  exists fuel, fin. split; [done |]. now apply crawl_loop_iter.
Qed.

(** * The claims *)

(** C1, as amended.  When [save_page_content] raises for a fetched page, the
    [except Exception] handler of the loop catches it: the turn ends
    normally with the failure printed, no record is appended and the records
    made so far are untouched, the key stays marked, no link is taken from
    the page, and the loop goes on with the rest of the queue until [crawl]
    returns normally with the earlier records still at the front of
    [crawled_pages]. *)
Theorem persistence_failure_is_caught n u d rest p c e :
  launch w = Ok tt ->
  queue (run n) = (u, d) :: rest ->
  normalize_url u ∉ visited_urls (run n) ->
  d <= hops self ->
  goto w (length (fetched (stdout (run n)))) u = Ok p ->
  bad_status (status p) = false ->
  content p = Ok c ->
  (forall st, (save_page_content (length (fetched (stdout (run n)))) c u st).1 = Raise e) ->
  queue (run (S n)) = rest /\
  crawled_pages (run (S n)) = crawled_pages (run n) /\
  visited_urls (run (S n)) = {[normalize_url u]} ∪ visited_urls (run n) /\
  stdout (run (S n)) = stdout (run n) ++ [Crawling u; FailedExn u e] /\
  exists fuel fin m,
    crawl lib self w fuel = Some (Ok tt, fin) /\
    fin = Nat.iter m iteration (run (S n)) /\
    crawled_pages (run n) `prefix_of` crawled_pages fin.
Proof.
  intros Hl Hq Hin Hd Hgoto Hbad Hc Hsave.
  assert (Hstep : run (S n) = iteration (run n)) by done.
  assert (Hres :
    queue (iteration (run n)) = rest /\
    crawled_pages (iteration (run n)) = crawled_pages (run n) /\
    visited_urls (iteration (run n)) = {[normalize_url u]} ∪ visited_urls (run n) /\
    stdout (iteration (run n)) = stdout (run n) ++ [Crawling u; FailedExn u e]).
  { rewrite (iteration_attempt _ _ _ _ Hq Hin Hd).
    set (k := length (fetched (stdout (run n)))) in *.
    set (st0 := set_stdout (stdout (run n) ++ [Crawling u]) (set_queue rest (run n))).
    destruct (save_page_content k c u
                (set_visited_urls ({[normalize_url u]} ∪ visited_urls st0) st0))
      as [r st1] eqn:Hs.
    pose proof (Hsave (set_visited_urls ({[normalize_url u]} ∪ visited_urls st0) st0)) as Hr.
    rewrite Hs in Hr. simpl in Hr. subst r.
    rewrite (visit_save_raises _ _ _ _ _ _ _ _ _ Hgoto Hbad Hc Hs).
    apply save_page_content_frame in Hs as (Hq1 & Hv1 & Ho1 & Hp1).
    simpl in *. rewrite Hq1, Hv1, Ho1, Hp1, <- app_assoc. done. }
  rewrite Hstep. destruct Hres as (? & ? & ? & ?). repeat split; try done.
  destruct (crawl_returns Hl (S n)) as (fuel & fin & Hle & Hcrawl & Hfin & _).
  exists fuel, fin, (fuel - S n)%nat. split; [done |].
  assert (Hfin' : fin = Nat.iter (fuel - S n) iteration (run (S n))).
  { rewrite <- run_add, Hfin. f_equal. lia. }
  split; [now rewrite <- Hstep |].
  rewrite Hfin'. etrans; [apply iteration_pages_prefix |].
  rewrite <- Hstep. apply iter_pages_prefix.
Qed.

(** C2, as amended.  The visited set holds exactly the keys (normalized
    URLs) of the navigations whose fetch succeeded; a key enters it only in
    the turn of a successful fetch and is absent from it until then; and
    once a fetch has succeeded no later navigation has the same key, so two
    successful fetches never share a normalized form.  Nothing is promised
    for a navigation whose fetch failed: its URL is not marked and may be
    navigated to again. *)
Theorem visited_only_after_success n :
  (forall x, x ∈ visited_urls (run n) <->
     exists i u, fetched (stdout (run n)) !! i = Some u /\
                 fetch_ok i u = true /\ x = normalize_url u) /\
  (forall i j u v, (i < j)%nat ->
     fetched (stdout (run n)) !! i = Some u ->
     fetched (stdout (run n)) !! j = Some v ->
     fetch_ok i u = true -> normalize_url u <> normalize_url v) /\
  (visited_urls (run (S n)) = visited_urls (run n) \/
   exists u,
     fetched (stdout (run (S n))) = fetched (stdout (run n)) ++ [u] /\
     fetch_ok (length (fetched (stdout (run n)))) u = true /\
     (normalize_url u ∉ visited_urls (run n)) /\
     visited_urls (run (S n)) = {[normalize_url u]} ∪ visited_urls (run n)).
Proof.
  destruct (coherent_run n) as (H1 & H2 & _).
  split; [exact H1 |]. split; [exact H2 |].
  change (run (S n)) with (iteration (run n)).
  destruct (queue (run n)) as [|[u d] rest] eqn:Eq.
  { left. now rewrite iteration_empty. }
  destruct (iteration_step _ _ _ _ Eq) as [[_ ->] | (Hin & _ & Hstep)].
  { now left. }
  cbv zeta in Hstep. destruct Hstep as (Hf & Hv & _).
  destruct (fetch_ok _ u) eqn:Hok; [| now left].
  right. exists u. done.
Qed.

(** C3, on the code.  For a bare [scheme://host] URL [u], [normalize_url]
    appends the slash to [u] but strips it from [u/]: the two inputs get
    different keys, and the second key has no trailing slash. *)
Theorem normalize_root_slash_flips u :
  PyStr.count "/" u = 2%nat ->
  PyStr.endswith u "/" = false ->
  urldefrag lib u = u ->
  urldefrag lib (u +:+ "/") = u +:+ "/" ->
  normalize_url u = u +:+ "/" /\
  normalize_url (u +:+ "/") = u /\
  normalize_url (u +:+ "/") <> normalize_url u.
Proof.
  intros Hcount Hend Hu Hus.
  assert (H1 : normalize_url u = u +:+ "/").
  { unfold normalize_url. now rewrite Hu, Hcount, Hend. }
  assert (H2 : normalize_url (u +:+ "/") = u).
  { unfold normalize_url. rewrite Hus, count_app, Hcount. simpl.
    rewrite rstrip_snoc. now apply rstrip_fixed. }
  repeat split; [done | done |].
  rewrite H1, H2. intros Heq.
  apply (f_equal String.length) in Heq.
  rewrite string_length_app in Heq. simpl in Heq. lia.
Qed.

(** X21.  The domain filter is applied to every link before it is
    enqueued: at every point of the crawl each queue entry is either a
    normalized starter URL at depth 0 or a URL at depth at least 1 that
    satisfies [is_allowed], and each URL navigated to is a normalized
    starter URL or satisfies [is_allowed]. *)
Theorem frontier_is_seeds_or_filtered n :
  Forall (fun e =>
            (e.2 = 0 /\ e.1 ∈ (normalize_url <$> starter_urls self)) \/
            (0 < e.2 /\ is_allowed e.1 = true))
         (queue (run n)) /\
  Forall (fun u => u ∈ (normalize_url <$> starter_urls self) \/ is_allowed u = true)
         (fetched (stdout (run n))).
Proof. exact (filtered_run n). Qed.

(** C8, as amended.  [is_allowed] is true exactly when the network location
    that [urlparse] gives for the URL, user information and port included,
    ends, as a plain string, with an entry of [allowed_domains]; for a URL
    whose network location is its host alone this is the suffix test on the
    host. *)
Theorem is_allowed_iff_suffix u :
  (is_allowed u = true <->
   exists allowed, allowed ∈ allowed_domains self /\
     exists prefix, netloc lib u = prefix +:+ allowed) /\
  (host_component (netloc lib u) = netloc lib u ->
   (is_allowed u = true <->
    exists allowed, allowed ∈ allowed_domains self /\
      exists prefix, host_component (netloc lib u) = prefix +:+ allowed)).
Proof.
  assert (H : is_allowed u = true <->
              exists allowed, allowed ∈ allowed_domains self /\
                exists prefix, netloc lib u = prefix +:+ allowed).
  { unfold is_allowed. rewrite existsb_exists. split.
    - intros (a & Ha & He). exists a. split; [now apply list_elem_of_In |].
      now apply endswith_spec.
    - intros (a & Ha & He). exists a. split; [now apply list_elem_of_In |].
      now apply endswith_spec. }
  split; [exact H |]. intros ->. exact H.
Qed.

Lemma single_seed_invariant A n :
  hops self = 0 -> starter_urls self = [A] ->
  (queue (run n) = [(normalize_url A, 0)] /\
   fetched (stdout (run n)) = [] /\ crawled_pages (run n) = []) \/
  (Forall (fun e => 0 < e.2) (queue (run n)) /\
   (fetched (stdout (run n)) = [] \/ fetched (stdout (run n)) = [normalize_url A]) /\
   (length (crawled_pages (run n)) <= 1)%nat /\
   Forall (fun r => url r = normalize_url A) (crawled_pages (run n))).
Proof.
  intros Hh Hs. induction n as [|n IH].
  { left. unfold run, init. simpl. now rewrite Hs. }
  change (run (S n)) with (iteration (run n)). right.
  destruct IH as [(Hq & Hf & Hp) | (Hq & Hf & Hl & Hp)].
  - destruct (iteration_step _ _ _ _ Hq) as [[_ ->] | (_ & _ & Hstep)].
    { simpl. rewrite Hf, Hp. simpl. repeat split; try done; [now left | lia]. }
    cbv zeta in Hstep. destruct Hstep as (Hfe & _ & (new & Hnew & Hall) & Hrec).
    rewrite Hfe, Hnew, Hf. simpl. repeat split.
    + eapply Forall_impl; [exact Hall |]. intros e [_ He]. lia.
    + now right.
    + destruct Hrec as [-> | (rec & -> & _)]; rewrite Hp; simpl; lia.
    + destruct Hrec as [-> | (rec & -> & Hu & _)]; rewrite Hp; simpl; [done |].
      now apply Forall_singleton.
  - destruct (queue (run n)) as [|[u d] rest] eqn:Eq.
    { rewrite iteration_empty by done. rewrite Eq. done. }
    apply Forall_cons in Hq as [Hd Hq]. simpl in Hd.
    destruct (iteration_step _ _ _ _ Eq) as [[_ ->] | (_ & Hle & _)]; [done | lia].
Qed.

(** C5.  An entry whose depth exceeds [hops] is discarded when it is
    dequeued: the turn navigates nowhere and appends no record, and a turn
    that does navigate or record has dequeued an entry of depth at most
    [hops].  With [hops = 0] and the single starter URL [A], a run navigates
    at most once, to the key of [A], and holds at most one record, for that
    URL: no link taken from [A] is ever fetched. *)
Theorem hop_limit_is_a_ceiling :
  (forall st u d rest,
     queue st = (u, d) :: rest -> hops self < d ->
     iteration st = set_queue rest st) /\
  (forall st,
     fetched (stdout (iteration st)) <> fetched (stdout st) \/
     crawled_pages (iteration st) <> crawled_pages st ->
     exists u d rest, queue st = (u, d) :: rest /\ d <= hops self) /\
  (forall A n,
     hops self = 0 -> starter_urls self = [A] ->
     (fetched (stdout (run n)) = [] \/ fetched (stdout (run n)) = [normalize_url A]) /\
     (length (crawled_pages (run n)) <= 1)%nat /\
     Forall (fun r => url r = normalize_url A) (crawled_pages (run n))).
Proof.
  split; [| split].
  - intros st u d rest Hq Hd. eapply iteration_skip; eauto.
  - intros st Hchange.
    destruct (queue st) as [|[u d] rest] eqn:Eq.
    { rewrite iteration_empty in Hchange by done. destruct Hchange; done. }
    destruct (iteration_step _ _ _ _ Eq) as [[_ Hskip] | (_ & Hle & _)].
    + rewrite Hskip in Hchange. destruct Hchange; done.
    + exists u, d, rest. done.
  - intros A n Hh Hs.
    destruct (single_seed_invariant A n Hh Hs) as [(_ & -> & ->) | (_ & ? & ? & ?)].
    + simpl. repeat split; [now left | lia | done].
    + done.
Qed.

(** C6, as amended.  When the fetch of the dequeued URL fails, because
    [page.goto] raises or because the status is below 200 or at least 400,
    the turn prints the failure and changes nothing else: no record, no
    file, the URL is not marked visited.  Any exception that the [try] body
    raises, at whatever point, is caught and printed by the turn; when it
    comes after a successful fetch the URL is already marked visited.  In
    every case the rest of the frontier stays on the queue, each of its
    entries is dequeued in its turn, and the loop runs on until the queue
    is empty. *)
Theorem per_url_failure_is_local st u d rest :
  queue st = (u, d) :: rest ->
  normalize_url u ∉ visited_urls st ->
  d <= hops self ->
  (fetch_ok (length (fetched (stdout st))) u = false ->
   (exists l,
      iteration st = set_stdout (stdout st ++ [Crawling u; l]) (set_queue rest st) /\
      ((exists code, l = FailedStatus u code) \/ (exists e, l = FailedExn u e))) /\
   crawled_pages (iteration st) = crawled_pages st /\
   disk (iteration st) = disk st /\
   visited_urls (iteration st) = visited_urls st /\
   (normalize_url u ∉ visited_urls (iteration st)) /\
   queue (iteration st) = rest) /\
  (forall e st1,
     visit (length (fetched (stdout st))) u (normalize_url u) d
           (set_stdout (stdout st ++ [Crawling u]) (set_queue rest st))
       = (Raise e, st1) ->
     iteration st = set_stdout (stdout st1 ++ [FailedExn u e]) st1) /\
  (fetch_ok (length (fetched (stdout st))) u = true ->
   normalize_url u ∈ visited_urls (iteration st)) /\
  (exists new, queue (iteration st) = rest ++ new) /\
  crawled_pages st `prefix_of` crawled_pages (iteration st) /\
  (forall i e, rest !! i = Some e ->
     exists tail, queue (Nat.iter i iteration (iteration st)) = e :: tail) /\
  (forall fuel, crawl_loop (S fuel) st = crawl_loop fuel (iteration st)) /\
  exists fuel fin,
    crawl_loop fuel (iteration st) = Some fin /\
    fin = Nat.iter fuel iteration (iteration st) /\ queue fin = [].
Proof.
  intros Hq Hin Hd.
  destruct (every_turn_goes_on _ _ _ _ Hq) as ((new & Hnew) & Hpre & _ & Hloop & _).
  split; [| split; [| split; [| split; [| split; [| split; [| split]]]]]].
  - intros Hfail.
    assert (Hit : exists l,
      iteration st = set_stdout (stdout st ++ [Crawling u; l]) (set_queue rest st) /\
      ((exists code, l = FailedStatus u code) \/ (exists e, l = FailedExn u e))).
    { rewrite (iteration_attempt _ _ _ _ Hq Hin Hd).
      unfold fetch_ok in Hfail.
      destruct (goto w _ u) as [p|e] eqn:Hgoto.
      - apply negb_false_iff in Hfail.
        rewrite (visit_bad_status _ _ _ _ _ _ Hgoto Hfail). simpl.
        exists (FailedStatus u (status p)). rewrite <- app_assoc. eauto.
      - rewrite (visit_goto_raises _ _ _ _ _ _ Hgoto). simpl.
        exists (FailedExn u e). rewrite <- app_assoc. eauto. }
    split; [exact Hit |]. destruct Hit as (l & Heq & _).
    do 4 (split; [now rewrite Heq |]). now rewrite Heq.
  - intros e st1 Hvisit.
    now rewrite (iteration_attempt _ _ _ _ Hq Hin Hd), Hvisit.
  - intros Hok.
    destruct (iteration_step _ _ _ _ Hq) as [[[Hv | Hlt] _] | (_ & _ & Hstep)];
      [done | lia |].
    cbv zeta in Hstep. destruct Hstep as (_ & -> & _). rewrite Hok. set_solver.
  - eauto.
  - exact Hpre.
  - intros i e Hi. apply turns_reach_each_entry.
    rewrite Hnew. now apply lookup_app_l_Some.
  - exact Hloop.
  - apply crawl_loop_completes.
Qed.

(** C7, as amended.  When link extraction fails on a page that was fetched
    and saved, the record of the page has been appended and stays, and the
    queue has gained the entries of the links handled before the failing
    one: none when [element_handles] itself raises, and otherwise those of
    the links that precede the first one whose attribute cannot be read or
    resolved. *)
Theorem extraction_failure_keeps_earlier_links st u d rest p c handled e :
  queue st = (u, d) :: rest ->
  normalize_url u ∉ visited_urls st ->
  d <= hops self ->
  goto w (length (fetched (stdout st))) u = Ok p ->
  bad_status (status p) = false ->
  content p = Ok c ->
  (forall st0, (save_page_content (length (fetched (stdout st))) c u st0).1 = Ok tt) ->
  (element_handles p = Raise e /\ handled = []) \/
  (exists bad later,
     element_handles p = Ok (handled ++ bad :: later) /\
     Forall (fun l => link_error lib u l = None) handled /\
     link_error lib u bad = Some e) ->
  crawled_pages (iteration st) =
    crawled_pages st ++
      [{| url := u; local_filepath := save_path (length (fetched (stdout st)));
          size := Z.of_nat (length c) |}] /\
  queue (iteration st) =
    rest ++ flat_map (accepts lib self ({[normalize_url u]} ∪ visited_urls st) u d) handled /\
  stdout (iteration st) = stdout st ++ [Crawling u; FailedExn u e].
Proof.
  intros Hq Hin Hd Hgoto Hbad Hc Hsave Hext.
  rewrite (iteration_attempt _ _ _ _ Hq Hin Hd).
  set (k := length (fetched (stdout st))) in *.
  set (st0 := set_stdout (stdout st ++ [Crawling u]) (set_queue rest st)).
  set (stv := set_visited_urls ({[normalize_url u]} ∪ visited_urls st0) st0).
  destruct (save_page_content k c u stv) as [r st1] eqn:Hs.
  pose proof (Hsave stv) as Hr. rewrite Hs in Hr. simpl in Hr. subst r.
  rewrite (visit_saved _ _ _ _ _ _ _ _ Hgoto Hbad Hc Hs).
  rewrite save_page_content_spec in Hs.
  destruct (open_w w k _); [| done]. simpl in Hs.
  destruct (utf8_encode c) as [bytes|]; [| done].
  destruct (write_w w k _ bytes); [| done].
  injection Hs as <-.
  destruct Hext as [[-> ->] | (bad & later & -> & Hh & Hb)].
  - simpl. rewrite app_nil_r, <- app_assoc. done.
  - rewrite (walk_until _ _ _ _ _ Hh Hb). simpl. rewrite <- app_assoc. done.
Qed.

(** C9, as amended.  A completed [save_page_content] appends one record
    with the source URL, the path of the file it wrote, whose bytes on disk
    are the UTF-8 encoding of the content, and as size the number of
    characters of the content; that number is the byte length of the file
    when the content is ASCII and is smaller than it otherwise. *)
Theorem saved_record_counts_characters k c u st st' :
  save_page_content k c u st = (Ok tt, st') ->
  exists bytes,
    utf8_encode c = Ok bytes /\
    crawled_pages st' =
      crawled_pages st ++
        [{| url := u; local_filepath := save_path k;
            size := Z.of_nat (length c) |}] /\
    disk st' !! save_path k = Some bytes /\
    (is_ascii c -> Z.of_nat (length c) = Z.of_nat (length bytes)) /\
    (~ is_ascii c -> Z.of_nat (length c) < Z.of_nat (length bytes)).
Proof.
  rewrite save_page_content_spec.
  destruct (open_w w k _); [| done]. simpl.
  destruct (utf8_encode c) as [bytes|] eqn:Henc; [| done]. simpl.
  destruct (write_w w k _ bytes); [| done].
  intros [= <-]. exists bytes. simpl. repeat split; try done.
  - apply lookup_insert_eq.
  - intros Ha. rewrite (utf8_encode_ascii _ Ha) in Henc. now injection Henc as ->.
  - intros Ha. apply (utf8_encode_longer _ _ Henc) in Ha. lia.
Qed.

(** C10.  When the [k]-th navigation fetched [u] and [save_page_content]
    then raised, the key of [u] is in the visited set from then on, no
    record for [u] is in [crawled_pages], and no later navigation has the
    key of [u]; [crawl] still returns normally, with the key marked and
    without a record for [u]. *)
Theorem unsaved_page_stays_visited n k u p c e :
  fetched (stdout (run n)) !! k = Some u ->
  goto w k u = Ok p ->
  bad_status (status p) = false ->
  content p = Ok c ->
  (forall st, (save_page_content k c u st).1 = Raise e) ->
  normalize_url u ∈ visited_urls (run n) /\
  (forall r, r ∈ crawled_pages (run n) -> url r <> u) /\
  (forall j v, (k < j)%nat -> fetched (stdout (run n)) !! j = Some v ->
     normalize_url v <> normalize_url u) /\
  (launch w = Ok tt ->
   exists fuel fin,
     crawl lib self w fuel = Some (Ok tt, fin) /\
     normalize_url u ∈ visited_urls fin /\
     (forall r, r ∈ crawled_pages fin -> url r <> u)).
Proof.
  intros Hk Hgoto Hbad Hc Hsave.
  assert (Hok : fetch_ok k u = true).
  { unfold fetch_ok. now rewrite Hgoto, Hbad. }
  assert (Hall : forall m,
    fetched (stdout (run m)) !! k = Some u ->
    normalize_url u ∈ visited_urls (run m) /\
    (forall r, r ∈ crawled_pages (run m) -> url r <> u) /\
    (forall j v, (k < j)%nat -> fetched (stdout (run m)) !! j = Some v ->
       normalize_url v <> normalize_url u)).
  { intros m Hm. destruct (coherent_run m) as (H1 & H2 & H3). repeat split.
    - apply H1. eauto.
    - intros r Hr Hu. destruct (H3 r Hr) as (i & Hi & Hpers). rewrite Hu in *.
      assert (Hoki : fetch_ok i u = true).
      { destruct Hpers as (p' & c' & Hg & Hb & _). unfold fetch_ok. now rewrite Hg, Hb. }
      destruct (Nat.lt_total i k) as [Hlt | [-> | Hlt]].
      + now apply (H2 i k u u Hlt).
      + destruct Hpers as (p' & c' & Hg & _ & Hc' & Hs).
        rewrite Hgoto in Hg. injection Hg as <-.
        rewrite Hc in Hc'. injection Hc' as <-.
        specialize (Hs (run m)). rewrite Hsave in Hs. done.
      + now apply (H2 k i u u Hlt).
    - intros j v Hlt Hj Heq. now apply (H2 k j u v Hlt). }
  destruct (Hall n Hk) as (? & ? & ?). repeat split; try done.
  intros Hl. destruct (crawl_returns Hl n) as (fuel & fin & Hle & Hcrawl & Hfin & _).
  exists fuel, fin. split; [done |]. subst fin.
  assert (Hkf : fetched (stdout (run fuel)) !! k = Some u).
  { replace fuel with (n + (fuel - n))%nat by lia. rewrite run_add.
    eapply prefix_lookup_Some; [exact Hk | apply iter_fetched_prefix]. }
  destruct (Hall fuel Hkf) as (? & ? & _). done.
Qed.

(** * Further properties of the crawler *)

(** ** The shape of the frontier *)

Lemma bfs_ordered_tail e q : bfs_ordered (e :: q) -> bfs_ordered q.
Proof.
  intros H i j e1 e2 Hij Hi Hj.
  apply (H (S i) (S j) e1 e2); [lia | done | done].
Qed.

Lemma bfs_ordered_push e q new :
  bfs_ordered (e :: q) -> Forall (fun x => x.2 = e.2 + 1) new ->
  bfs_ordered (q ++ new).
Proof.
  intros H Hnew i j e1 e2 Hij Hi Hj.
  assert (Hold : forall k x, q !! k = Some x -> e.2 <= x.2 <= e.2 + 1).
  { intros k x Hk. apply (H 0%nat (S k) e x); [lia | done | done]. }
  assert (Hfresh : forall k x, new !! k = Some x -> x.2 = e.2 + 1).
  { intros k x Hk. eapply Forall_lookup_1 in Hnew; [| exact Hk]. done. }
  apply lookup_app_Some in Hi as [Hi | [Hli Hi]];
    apply lookup_app_Some in Hj as [Hj | [Hlj Hj]].
  - apply (H (S i) (S j) e1 e2); [lia | done | done].
  - apply Hold in Hi. apply Hfresh in Hj. lia.
  - apply lookup_lt_Some in Hj. lia.
  - apply Hfresh in Hi. apply Hfresh in Hj. lia.
Qed.

Lemma bfs_ordered_init : bfs_ordered (queue init).
Proof.
  assert (H : forall k x, queue init !! k = Some x -> x.2 = 0).
  { intros k x Hk. unfold init in Hk. simpl in Hk.
    apply list_elem_of_lookup_2, list_elem_of_In, in_map_iff in Hk as (s & <- & _).
    done. }
  intros i j e1 e2 _ Hi Hj. apply H in Hi. apply H in Hj. lia.
Qed.

Lemma bfs_ordered_iteration st :
  bfs_ordered (queue st) -> bfs_ordered (queue (iteration st)).
Proof.
  intros H. destruct (queue st) as [|[u d] rest] eqn:Eq.
  { rewrite iteration_empty by done. now rewrite Eq. }
  destruct (iteration_step _ _ _ _ Eq) as [[_ ->] | (_ & _ & Hstep)].
  { simpl. eapply bfs_ordered_tail, H. }
  cbv zeta in Hstep. destruct Hstep as (_ & _ & (new & -> & Hnew) & _).
  eapply bfs_ordered_push; [exact H |].
  eapply Forall_impl; [exact Hnew |]. intros x [_ Hx]. done.
Qed.

Lemma depth_range_iteration st :
  Forall (fun e => e.2 = 0 \/ 1 <= e.2 <= hops self + 1) (queue st) ->
  Forall (fun e => e.2 = 0 \/ 1 <= e.2 <= hops self + 1) (queue (iteration st)).
Proof.
  intros H. destruct (queue st) as [|[u d] rest] eqn:Eq.
  { rewrite iteration_empty by done. now rewrite Eq. }
  apply Forall_cons in H as [Hd H]. simpl in Hd.
  destruct (iteration_step _ _ _ _ Eq) as [[_ ->] | (_ & Hle & Hstep)]; [done |].
  cbv zeta in Hstep. destruct Hstep as (_ & _ & (new & -> & Hnew) & _).
  apply Forall_app. split; [done |].
  eapply Forall_impl; [exact Hnew |]. intros x [_ Hx]. lia.
Qed.

(** X1.  At every point of a run the frontier is in breadth-first order:
    along the queue the depths never decrease and no two differ by more
    than one; every depth is 0 (a seed) or lies between 1 and [hops + 1]. *)
Theorem frontier_is_breadth_first n :
  bfs_ordered (queue (run n)) /\
  Forall (fun e => e.2 = 0 \/ 1 <= e.2 <= hops self + 1) (queue (run n)).
Proof.
  induction n as [|n [IH1 IH2]].
  - split; [apply bfs_ordered_init |].
    apply Forall_forall. intros x Hx. left. unfold run, init in Hx. simpl in Hx.
    apply list_elem_of_In, in_map_iff in Hx as (s & <- & _). done.
  - change (run (S n)) with (iteration (run n)).
    split; [now apply bfs_ordered_iteration | now apply depth_range_iteration].
Qed.

(** ** Records, marks and navigations *)

Lemma size_add_fresh (x : string) (X : gset string) :
  x ∉ X -> base.size ({[x]} ∪ X) = S (base.size X).
Proof.
  intros Hx. rewrite size_union by set_solver. now rewrite size_singleton.
Qed.

Lemma records_iteration st :
  (NoDup (url <$> crawled_pages st) /\
   (forall r, r ∈ crawled_pages st -> normalize_url (url r) ∈ visited_urls st) /\
   (length (crawled_pages st) <= base.size (visited_urls st))%nat /\
   (base.size (visited_urls st) <= length (fetched (stdout st)))%nat) ->
  (NoDup (url <$> crawled_pages (iteration st)) /\
   (forall r, r ∈ crawled_pages (iteration st) ->
      normalize_url (url r) ∈ visited_urls (iteration st)) /\
   (length (crawled_pages (iteration st)) <= base.size (visited_urls (iteration st)))%nat /\
   (base.size (visited_urls (iteration st)) <= length (fetched (stdout (iteration st))))%nat).
Proof.
  intros (Hnd & Hvis & Hlen & Hsize).
  destruct (queue st) as [|[u d] rest] eqn:Eq.
  { rewrite iteration_empty by done. done. }
  destruct (iteration_step _ _ _ _ Eq) as [[_ ->] | (Hin & _ & Hstep)]; [done |].
  cbv zeta in Hstep. destruct Hstep as (Hf & Hv & _ & Hp).
  rewrite Hf, Hv, length_app. simpl.
  destruct Hp as [Hp | (rec & Hp & Hu & Hok & _)]; rewrite Hp.
  - repeat split; try done.
    + intros r Hr. apply Hvis in Hr. destruct (fetch_ok _ u); set_solver.
    + destruct (fetch_ok _ u); [rewrite size_add_fresh by done |]; lia.
    + destruct (fetch_ok _ u); [rewrite size_add_fresh by done |]; lia.
  - rewrite Hok, size_add_fresh by done. rewrite fmap_app, length_app. simpl.
    repeat split; try lia.
    + apply NoDup_app. split; [done |]. split; [| apply NoDup_singleton].
      intros x Hx Hx'. apply list_elem_of_singleton in Hx'. subst x.
      apply list_elem_of_fmap in Hx as (r & Hr & Hin').
      apply Hin. rewrite <- Hu, Hr. now apply Hvis.
    + intros r Hr. apply elem_of_app in Hr as [Hr | Hr].
      * apply Hvis in Hr. set_solver.
      * apply list_elem_of_singleton in Hr. subst r. rewrite Hu. set_solver.
Qed.

(** X2.  No page is recorded twice: the URLs of [crawled_pages] are pairwise
    distinct and the key of each is in the visited set; there are at most as
    many records as visited keys, and at most as many visited keys as
    navigations. *)
Theorem records_are_distinct_and_visited n :
  NoDup (url <$> crawled_pages (run n)) /\
  (forall r, r ∈ crawled_pages (run n) ->
     normalize_url (url r) ∈ visited_urls (run n)) /\
  (length (crawled_pages (run n)) <= base.size (visited_urls (run n)))%nat /\
  (base.size (visited_urls (run n)) <= length (fetched (stdout (run n))))%nat.
Proof.
  induction n as [|n IH].
  - unfold run, init. simpl. repeat split; try done.
    + apply NoDup_nil_2.
    + intros r Hr. set_solver.
  - change (run (S n)) with (iteration (run n)). now apply records_iteration.
Qed.

(** ** The files of a run *)

(** X3.  A [save_page_content] that raises appends no record and touches
    neither the queue, the visited set nor the printed lines; on disk it
    changes nothing, or it leaves in the file it opened the part of the
    encoded content that was written before the failure, which is nothing
    when the content cannot be encoded. *)
Theorem failed_save_leaves_no_record k c u st e st' :
  save_page_content k c u st = (Raise e, st') ->
  crawled_pages st' = crawled_pages st /\
  queue st' = queue st /\ visited_urls st' = visited_urls st /\
  stdout st' = stdout st /\
  (disk st' = disk st \/
   exists written,
     disk st' = <[save_path k := written]> (disk st) /\
     match utf8_encode c with
     | Ok bytes => written `prefix_of` bytes
     | Raise _ => written = []
     end).
Proof.
  rewrite save_page_content_spec.
  destruct (open_w w k _); [| intros [= _ <-]; repeat split; now left]. simpl.
  destruct (utf8_encode c) as [bytes|].
  2:{ intros [= _ <-]. repeat split. right. now exists []. }
  simpl. destruct (write_w w k _ bytes); [done |].
  intros [= _ <-]. repeat split. right. exists (take (flushed w k) bytes).
  simpl. rewrite insert_insert_eq. split; [done | apply prefix_take].
Qed.

(** What a turn does to the disk, with the record it appends. *)
Lemma visit_disk k u nu d st r st' :
  visit k u nu d st = (r, st') ->
  (crawled_pages st' = crawled_pages st /\
   (disk st' = disk st \/ exists x, disk st' = <[save_path k := x]> (disk st))) \/
  (exists p c bytes,
     goto w k u = Ok p /\ bad_status (status p) = false /\ content p = Ok c /\
     utf8_encode c = Ok bytes /\
     crawled_pages st' = crawled_pages st ++ [record_of self w k u c] /\
     disk st' = <[save_path k := bytes]> (disk st)).
Proof.
  destruct (goto w k u) as [p|e] eqn:Hgoto.
  2:{ rewrite (visit_goto_raises _ _ _ _ _ _ Hgoto). intros [= _ <-]. left. eauto. }
  destruct (bad_status (status p)) eqn:Hbad.
  { rewrite (visit_bad_status _ _ _ _ _ _ Hgoto Hbad). intros [= _ <-]. left. eauto. }
  destruct (content p) as [c|e] eqn:Hc.
  2:{ rewrite (visit_content_raises _ _ _ _ _ _ _ Hgoto Hbad Hc).
      intros [= _ <-]. left. eauto. }
  destruct (save_page_content k c u
              (set_visited_urls ({[nu]} ∪ visited_urls st) st)) as [rs st1] eqn:Hs.
  destruct rs as [[]|e].
  2:{ rewrite (visit_save_raises _ _ _ _ _ _ _ _ _ Hgoto Hbad Hc Hs).
      intros [= _ <-]. left.
      rewrite save_page_content_spec in Hs.
      destruct (open_w w k _); [| injection Hs as _ <-; eauto]. simpl in Hs.
      destruct (utf8_encode c) as [bytes|]; [| injection Hs as _ <-; simpl; eauto].
      simpl in Hs. destruct (write_w w k _ bytes); [done |].
      injection Hs as _ <-. simpl. rewrite insert_insert_eq. eauto. }
  rewrite (visit_saved _ _ _ _ _ _ _ _ Hgoto Hbad Hc Hs).
  rewrite save_page_content_spec in Hs.
  destruct (open_w w k _); [| done]. simpl in Hs.
  destruct (utf8_encode c) as [bytes|] eqn:Henc; [| done]. simpl in Hs.
  destruct (write_w w k _ bytes); [| done]. injection Hs as <-.
  intros Hres. right. exists p, c, bytes.
  assert (crawled_pages st' = crawled_pages st ++ [record_of self w k u c] /\
          disk st' = <[save_path k := bytes]> (disk st))
    as [? ?]; [| done].
  assert (Hins : <[save_path k := bytes]>
                   (<[save_path k := take (flushed w k) bytes]>
                      (<[save_path k := []]> (disk st)))
                 = <[save_path k := bytes]> (disk st)).
  { now rewrite !insert_insert_eq. }
  destruct (element_handles p) as [links|];
    [| injection Hres as _ <-; simpl; now rewrite Hins].
  cbv zeta in Hres.
  destruct (walk lib u links).2; injection Hres as _ <-; simpl; now rewrite Hins.
Qed.

Lemma iteration_disk st :
  (crawled_pages (iteration st) = crawled_pages st /\
   (disk (iteration st) = disk st \/
    exists x, disk (iteration st)
              = <[save_path (length (fetched (stdout st))) := x]> (disk st))) \/
  (exists u d rest p c bytes,
     queue st = (u, d) :: rest /\
     fetched (stdout (iteration st)) = fetched (stdout st) ++ [u] /\
     goto w (length (fetched (stdout st))) u = Ok p /\
     bad_status (status p) = false /\ content p = Ok c /\
     utf8_encode c = Ok bytes /\
     crawled_pages (iteration st)
       = crawled_pages st ++ [record_of self w (length (fetched (stdout st))) u c] /\
     disk (iteration st)
       = <[save_path (length (fetched (stdout st))) := bytes]> (disk st)).
Proof.
  destruct (queue st) as [|[u d] rest] eqn:Eq.
  { rewrite iteration_empty by done. left. eauto. }
  destruct (iteration_step _ _ _ _ Eq) as [[_ ->] | (Hin & Hd & Hstep)].
  { left. eauto. }
  cbv zeta in Hstep. destruct Hstep as (Hf & _).
  rewrite (iteration_attempt _ _ _ _ Eq Hin Hd) in *.
  destruct (visit _ _ _ _ _) as [r st'] eqn:Hvisit.
  apply visit_disk in Hvisit. simpl in Hvisit.
  assert (Hsame : forall e,
            crawled_pages (set_stdout (stdout st' ++ [FailedExn u e]) st')
              = crawled_pages st' /\
            disk (set_stdout (stdout st' ++ [FailedExn u e]) st') = disk st') by done.
  destruct Hvisit as [[Hp Hdk] | (p & c & bytes & Hg & Hb & Hc & He & Hp & Hdk)].
  - left. destruct r as [[]|e]; [done |]. destruct (Hsame e) as [-> ->]. done.
  - right. exists u, d, rest, p, c, bytes.
    destruct r as [[]|e]; [done |]. destruct (Hsame e) as [-> ->]. done.
Qed.

Lemma string_app_cancel_r a b s :
  String.length a = String.length b -> a +:+ s = b +:+ s -> a = b.
Proof.
  revert b. induction a as [|x a IH]; intros [|y b]; simpl; try done.
  intros [= Hl] [= -> Heq]. f_equal. now apply IH.
Qed.

Lemma string_app_inj_r a b s : a +:+ s = b +:+ s -> a = b.
Proof.
  intros H. apply string_app_cancel_r with s; [| done].
  apply (f_equal String.length) in H. rewrite !string_length_app in H. lia.
Qed.

Lemma string_app_inj_l s a b : s +:+ a = s +:+ b -> a = b.
Proof. induction s as [|x s IH]; simpl; [done |]. intros [= H]. now apply IH. Qed.

Lemma save_path_eq k :
  save_path k = PyStr.path_join (storage_folder self) (uuid4_hex w k +:+ ".html").
Proof. done. Qed.

Lemma save_path_inj :
  (forall i j, uuid4_hex w i = uuid4_hex w j -> i = j) ->
  forall i j, save_path i = save_path j -> i = j.
Proof.
  intros Hinj i j H. apply Hinj. rewrite !save_path_eq in H.
  unfold PyStr.path_join in H.
  destruct (String.eqb (storage_folder self) "").
  { now apply string_app_inj_r in H. }
  destruct (PyStr.endswith (storage_folder self) "/").
  - apply string_app_inj_l in H. now apply string_app_inj_r in H.
  - apply string_app_inj_l, string_app_inj_l in H. now apply string_app_inj_r in H.
Qed.

(** A file, once written, stays. *)
Lemma files_iteration st :
  (forall r, r ∈ crawled_pages st -> is_Some (disk st !! local_filepath r)) ->
  forall r, r ∈ crawled_pages (iteration st) ->
    is_Some (disk (iteration st) !! local_filepath r).
Proof.
  intros Hfile.
  destruct (iteration_disk st)
    as [[-> [-> | [x ->]]] | (u & d & rest & p & c & bytes & _ & _ & _ & _ & _ & He & -> & ->)].
  - done.
  - intros r Hr. apply Hfile in Hr. apply lookup_insert_is_Some.
    destruct (decide (save_path (length (fetched (stdout st))) = local_filepath r)); eauto.
  - intros r Hr. apply elem_of_app in Hr as [Hr | Hr].
    + apply Hfile in Hr. apply lookup_insert_is_Some.
      destruct (decide (save_path (length (fetched (stdout st))) = local_filepath r)); eauto.
    + apply list_elem_of_singleton in Hr. subst r. simpl.
      rewrite lookup_insert_eq. eauto.
Qed.

Lemma files_run n r :
  r ∈ crawled_pages (run n) -> is_Some (disk (run n) !! local_filepath r).
Proof.
  revert r. induction n as [|n IH].
  - unfold run, init. simpl. intros r Hr. set_solver.
  - change (run (S n)) with (iteration (run n)). now apply files_iteration.
Qed.

(** X4.  At every point of a run each record names a file that exists on
    disk: a file, once written, is never removed. *)
Theorem record_files_exist n r :
  r ∈ crawled_pages (run n) -> is_Some (disk (run n) !! local_filepath r).
Proof. apply files_run. Qed.

(** With file names that never repeat, the file of each record holds the
    encoding of the content that the navigation of the record rendered. *)
Lemma faithful_files_iteration st :
  (forall i j, uuid4_hex w i = uuid4_hex w j -> i = j) ->
  (forall r, r ∈ crawled_pages st ->
     exists i p c bytes,
       fetched (stdout st) !! i = Some (url r) /\
       goto w i (url r) = Ok p /\ content p = Ok c /\
       utf8_encode c = Ok bytes /\ r = record_of self w i (url r) c /\
       disk st !! save_path i = Some bytes) ->
  forall r, r ∈ crawled_pages (iteration st) ->
    exists i p c bytes,
      fetched (stdout (iteration st)) !! i = Some (url r) /\
      goto w i (url r) = Ok p /\ content p = Ok c /\
      utf8_encode c = Ok bytes /\ r = record_of self w i (url r) c /\
      disk (iteration st) !! save_path i = Some bytes.
Proof.
  intros Hinj Hold.
  pose proof (iteration_fetched_prefix st) as Hpre.
  assert (Hkeep : forall x r, r ∈ crawled_pages st ->
            exists i p c bytes,
              fetched (stdout (iteration st)) !! i = Some (url r) /\
              goto w i (url r) = Ok p /\ content p = Ok c /\
              utf8_encode c = Ok bytes /\ r = record_of self w i (url r) c /\
              <[save_path (length (fetched (stdout st))) := x]> (disk st)
                !! save_path i = Some bytes).
  { intros x r Hr. destruct (Hold r Hr) as (i & p & c & bytes & Hi & ? & ? & ? & ? & Hd).
    exists i, p, c, bytes. repeat split; try done.
    - eapply prefix_lookup_Some; [exact Hi | exact Hpre].
    - rewrite lookup_insert_ne; [done |].
      intros Heq. apply (save_path_inj Hinj) in Heq.
      apply lookup_lt_Some in Hi. lia. }
  destruct (iteration_disk st)
    as [[Hp [Hd | [x Hd]]] | (u & d & rest & p & c & bytes & _ & Hf & Hg & _ & Hc & He & Hp & Hd)];
    rewrite Hp, Hd.
  - intros r Hr. destruct (Hold r Hr) as (i & p & c & bytes & Hi & ? & ? & ? & ? & ?).
    exists i, p, c, bytes. repeat split; try done.
    eapply prefix_lookup_Some; [exact Hi | exact Hpre].
  - intros r Hr. now apply Hkeep.
  - intros r Hr. apply elem_of_app in Hr as [Hr | Hr].
    + now apply Hkeep.
    + apply list_elem_of_singleton in Hr. subst r. simpl.
      exists (length (fetched (stdout st))), p, c, bytes.
      rewrite Hf. repeat split; try done.
      * rewrite lookup_app_r by lia. now rewrite Nat.sub_diag.
      * apply lookup_insert_eq.
Qed.

Lemma faithful_files_run n r :
  (forall i j, uuid4_hex w i = uuid4_hex w j -> i = j) ->
  r ∈ crawled_pages (run n) ->
  exists i p c bytes,
    fetched (stdout (run n)) !! i = Some (url r) /\
    goto w i (url r) = Ok p /\ content p = Ok c /\
    utf8_encode c = Ok bytes /\ r = record_of self w i (url r) c /\
    disk (run n) !! save_path i = Some bytes.
Proof.
  intros Hinj. revert r. induction n as [|n IH].
  - intros r Hr. unfold run, init in Hr. simpl in Hr. set_solver.
  - change (run (S n)) with (iteration (run n)).
    now apply faithful_files_iteration.
Qed.

(** X5.  When [uuid4] never repeats a name, each record [r] comes from one
    navigation of the run: its path is the path of that save, its size is
    the length of the rendered content, and its file holds the UTF-8
    encoding of that content. *)
Theorem record_files_hold_the_content n r :
  (forall i j, uuid4_hex w i = uuid4_hex w j -> i = j) ->
  r ∈ crawled_pages (run n) ->
  exists i p c bytes,
    fetched (stdout (run n)) !! i = Some (url r) /\
    goto w i (url r) = Ok p /\ content p = Ok c /\
    utf8_encode c = Ok bytes /\ r = record_of self w i (url r) c /\
    disk (run n) !! save_path i = Some bytes.
Proof. apply faithful_files_run. Qed.

(** ** Seeds and the hop limit *)

Lemma iteration_queue_rest st e rest :
  queue st = e :: rest -> exists new, queue (iteration st) = rest ++ new.
Proof.
  destruct e as [u d]. intros Hq.
  destruct (iteration_step _ _ _ _ Hq) as [[_ ->] | (_ & _ & Hstep)].
  - exists []. simpl. now rewrite app_nil_r.
  - cbv zeta in Hstep. destruct Hstep as (_ & _ & (new & Hnew & _) & _). eauto.
Qed.

Lemma seeds_iteration st s :
  0 <= hops self ->
  ((normalize_url s, 0) ∈ queue st \/
   normalize_url s ∈ fetched (stdout st) \/
   normalize_url (normalize_url s) ∈ visited_urls st) ->
  (normalize_url s, 0) ∈ queue (iteration st) \/
  normalize_url s ∈ fetched (stdout (iteration st)) \/
  normalize_url (normalize_url s) ∈ visited_urls (iteration st).
Proof.
  intros Hh [Hq | [Hf | Hv]].
  - destruct (queue st) as [|[u d] rest] eqn:Eq; [set_solver |].
    apply elem_of_cons in Hq as [[= <- <-] | Hq].
    + destruct (iteration_step _ _ _ _ Eq) as [[[Hv | Hd] ->] | (_ & _ & Hstep)].
      * right. right. done.
      * lia.
      * cbv zeta in Hstep. destruct Hstep as (-> & _). right. left. set_solver.
    + destruct (iteration_queue_rest _ _ _ Eq) as (new & ->). left. set_solver.
  - right. left. eapply elem_of_prefix; [exact Hf | apply iteration_fetched_prefix].
  - right. right. now apply iteration_visited_mono.
Qed.

(** X6.  With a hop limit of at least 0, no starter URL is dropped: when
    [crawl] has returned, each starter URL was navigated to in its
    normalized form, or its key was already marked by a successful fetch. *)
Theorem every_seed_is_tried fuel fin s :
  0 <= hops self ->
  crawl lib self w fuel = Some (Ok tt, fin) ->
  s ∈ starter_urls self ->
  normalize_url s ∈ fetched (stdout fin) \/
  normalize_url (normalize_url s) ∈ visited_urls fin.
Proof.
  intros Hh Hcrawl Hs. unfold crawl in Hcrawl.
  destruct (launch w); [| done].
  destruct (crawl_loop fuel init) as [st|] eqn:Hloop; [| done].
  injection Hcrawl as <-. apply crawl_loop_run in Hloop as [-> Hempty].
  assert (Hinv : forall n,
    (normalize_url s, 0) ∈ queue (run n) \/
    normalize_url s ∈ fetched (stdout (run n)) \/
    normalize_url (normalize_url s) ∈ visited_urls (run n)).
  { induction n as [|n IH].
    - left. unfold run, init. simpl.
      apply list_elem_of_In, in_map_iff. exists s. split; [done |].
      now apply list_elem_of_In.
    - change (run (S n)) with (iteration (run n)). now apply seeds_iteration. }
  destruct (Hinv fuel) as [Hq | H]; [| done].
  rewrite Hempty in Hq. set_solver.
Qed.

(** X7.  With a negative hop limit the crawl does nothing: no navigation,
    no record, no visited key, no file, at any point of the run. *)
Theorem negative_hops_fetch_nothing n :
  hops self < 0 ->
  fetched (stdout (run n)) = [] /\ crawled_pages (run n) = [] /\
  visited_urls (run n) = ∅ /\ disk (run n) = ∅.
Proof.
  intros Hh. induction n as [|n IH]; [done |].
  change (run (S n)) with (iteration (run n)).
  destruct (queue (run n)) as [|[u d] rest] eqn:Eq.
  { now rewrite iteration_empty. }
  destruct (filtered_run n) as [Hq _]. rewrite Eq in Hq.
  apply Forall_cons in Hq as [Hd _].
  rewrite (iteration_skip _ _ _ _ Eq); [done |]. right.
  destruct Hd as [[Hd _] | [Hd _]]; simpl in Hd; lia.
Qed.

(** X8.  The [while] loop terminates from every state, whatever the pages
    answer: after finitely many turns the queue is empty, the loop returns
    the state that those turns produce, and more fuel gives the same
    state. *)
Theorem crawl_loop_terminates st :
  exists fuel fin,
    crawl_loop fuel st = Some fin /\
    fin = Nat.iter fuel iteration st /\
    queue fin = [] /\
    forall fuel', (fuel <= fuel')%nat -> crawl_loop fuel' st = Some fin.
Proof.
  destruct (crawl_loop_completes st) as (fuel & fin & Hloop & Hfin & Hq).
  exists fuel, fin. repeat split; try done.
  intros fuel' Hle. exact (crawl_loop_fuel _ _ _ _ Hloop Hle).
Qed.

(** ** The two filters *)

Lemma rstrip_no_trailing c s :
  PyStr.endswith (PyStr.rstrip c s) (String c "") = false.
Proof.
  induction s as [|a s IH]; [done |].
  cbn [PyStr.rstrip]. destruct (PyStr.rstrip c s) as [|b r] eqn:Er.
  - destruct (Ascii.eqb a c) eqn:Ea; [done |].
    cbn [PyStr.endswith]. simpl. rewrite Ea. done.
  - cbn [PyStr.endswith]. cbn [PyStr.endswith] in IH. rewrite IH.
    simpl. destruct (Ascii.eqb a c); done.
Qed.

(** X9.  Apart from the bare [scheme://host] form, a trailing slash makes
    no difference to the key: [u/] and [u] normalize to the same string,
    which does not end in a slash, unless [u] has exactly two slashes and
    does not end in one. *)
Theorem trailing_slash_is_ignored u :
  urldefrag lib u = u ->
  urldefrag lib (u +:+ "/") = u +:+ "/" ->
  PyStr.count "/" u <> 2%nat \/ PyStr.endswith u "/" = true ->
  normalize_url (u +:+ "/") = normalize_url u /\
  PyStr.endswith (normalize_url u) "/" = false.
Proof.
  intros Hu Hus Hcase.
  assert (H1 : normalize_url (u +:+ "/") = PyStr.rstrip "/" u).
  { unfold normalize_url. rewrite Hus, endswith_snoc, andb_false_r.
    apply rstrip_snoc. }
  assert (H2 : normalize_url u = PyStr.rstrip "/" u).
  { unfold normalize_url. rewrite Hu.
    destruct Hcase as [Hc | He].
    - apply Nat.eqb_neq in Hc. now rewrite Hc.
    - now rewrite He, andb_false_r. }
  rewrite H1, H2. split; [done | apply rstrip_no_trailing].
Qed.

(** X10.  A key ends in a slash only in the root case: if [normalize_url u]
    ends in ["/"], then the URL without its fragment has exactly two
    slashes and the key is that URL with one slash appended. *)
Theorem key_with_slash_is_a_root u :
  PyStr.endswith (normalize_url u) "/" = true ->
  PyStr.count "/" (urldefrag lib u) = 2%nat /\
  normalize_url u = urldefrag lib u +:+ "/".
Proof.
  unfold normalize_url.
  destruct (Nat.eqb_spec (PyStr.count "/" (urldefrag lib u)) 2) as [Hc | Hc];
    destruct (PyStr.endswith (urldefrag lib u) "/"); simpl;
    rewrite ?rstrip_no_trailing; done.
Qed.

Lemma endswith_nil s : PyStr.endswith s "" = true.
Proof.
  induction s as [|a s IH]; [done |].
  cbn [PyStr.endswith]. rewrite IH. apply orb_true_r.
Qed.

Lemma is_allowed_intro u allowed :
  allowed ∈ allowed_domains self ->
  PyStr.endswith (netloc lib u) allowed = true ->
  is_allowed u = true.
Proof.
  intros Hin He. unfold is_allowed. apply existsb_exists.
  exists allowed. split; [now apply list_elem_of_In | done].
Qed.

(** X11.  An empty string among [allowed_domains] switches the domain filter
    off: every URL is allowed; and with no allowed domain at all, none is. *)
Theorem empty_suffix_allows_everything u :
  ("" ∈ allowed_domains self -> is_allowed u = true) /\
  (allowed_domains self = [] -> is_allowed u = false).
Proof.
  split.
  - intros H. eapply is_allowed_intro; [exact H | apply endswith_nil].
  - unfold is_allowed. now intros ->.
Qed.

(** ** Crawls that stay on the starter URLs *)

Lemma seeds_only_iteration st :
  hops self = 0 \/ allowed_domains self = [] ->
  Forall (seed_or_allowed lib self) (queue st) ->
  (Forall (fun u => u ∈ (normalize_url <$> starter_urls self)) (fetched (stdout st)) /\
   (length (fetched (stdout st))
      + length (filter (fun e : string * Z => e.2 = 0%Z) (queue st)) <= length (starter_urls self))%nat) ->
  Forall (fun u => u ∈ (normalize_url <$> starter_urls self))
         (fetched (stdout (iteration st))) /\
  (length (fetched (stdout (iteration st)))
     + length (filter (fun e : string * Z => e.2 = 0%Z) (queue (iteration st)))
   <= length (starter_urls self))%nat.
Proof.
  intros Hcase Hso [Hf Hlen].
  destruct (queue st) as [|[u d] rest] eqn:Eq.
  { rewrite iteration_empty by done. now rewrite Eq. }
  apply Forall_cons in Hso as [Hu _].
  assert (Hrest : (length (filter (fun e : string * Z => e.2 = 0%Z) rest)
                   <= length (filter (fun e : string * Z => e.2 = 0%Z) ((u, d) :: rest)))%nat).
  { rewrite filter_cons. case_decide; simpl; lia. }
  destruct (iteration_step _ _ _ _ Eq) as [[_ ->] | (_ & Hd & Hstep)].
  { simpl. split; [done | lia]. }
  cbv zeta in Hstep. destruct Hstep as (-> & _ & (new & -> & Hnew) & _).
  assert (Hseed : d = 0 /\ u ∈ (normalize_url <$> starter_urls self)).
  { destruct Hu as [[H0 Hs] | [Hpos Ha]]; simpl in *; [done |].
    destruct Hcase as [Hh | Hnone]; [lia |].
    unfold is_allowed in Ha. rewrite Hnone in Ha. done. }
  destruct Hseed as [-> Hseed].
  assert (Hnone : filter (fun e : string * Z => e.2 = 0%Z) new = []).
  { clear -Hnew. induction Hnew as [|x new [_ Hx] _ IH]; [done |].
    rewrite filter_cons. case_decide; [lia | done]. }
  rewrite filter_cons in Hlen. case_decide; [| done]. simpl in Hlen.
  rewrite filter_app, Hnone, app_nil_r, length_app. simpl. split.
  - apply Forall_app. split; [done |]. now apply Forall_singleton.
  - lia.
Qed.

(** X12.  With a hop limit of 0, or with no allowed domain, the crawl never
    leaves the starter URLs: every navigation of a run is to a normalized
    starter URL, and there are at most as many navigations as starter
    URLs. *)
Theorem crawl_stays_on_the_seeds n :
  hops self = 0 \/ allowed_domains self = [] ->
  Forall (fun u => u ∈ (normalize_url <$> starter_urls self))
         (fetched (stdout (run n))) /\
  (length (fetched (stdout (run n))) <= length (starter_urls self))%nat.
Proof.
  intros Hcase.
  assert (Hinv :
    Forall (fun u => u ∈ (normalize_url <$> starter_urls self))
           (fetched (stdout (run n))) /\
    (length (fetched (stdout (run n)))
       + length (filter (fun e : string * Z => e.2 = 0%Z) (queue (run n)))
     <= length (starter_urls self))%nat).
  { induction n as [|n IH].
    - unfold run, init. simpl. split; [done |].
      etrans; [apply length_filter |]. now rewrite length_map.
    - change (run (S n)) with (iteration (run n)).
      apply seeds_only_iteration; [done | apply filtered_run | done]. }
  destruct Hinv as [? ?]. split; [done | lia].
Qed.

End Steps.

(** * Closed instances *)

Module Runs.
Import Examples.

Example allowed_subdomain :
  is_allowed simple_urllib one_seed "http://blog.example.com/post" = true.
Proof. reflexivity. Qed.

Example allowed_without_label_boundary :
  is_allowed simple_urllib one_seed "http://evilexample.com/" = true.
Proof. reflexivity. Qed.

Example refused_other_host :
  is_allowed simple_urllib one_seed "http://example.org/" = false.
Proof. reflexivity. Qed.

Example normalize_non_root :
  normalize_url simple_urllib "http://x.com/a/" = "http://x.com/a" /\
  normalize_url simple_urllib "http://x.com/a#top" = "http://x.com/a".
Proof. split; reflexivity. Qed.

(** C1, the claim as stated fails: the disk refuses the file of the first
    page, and [crawl] neither aborts nor raises; it prints the failure, goes
    on to the second page and returns normally. *)
Lemma persistence_failure_is_swallowed :
  (forall st, (save_page_content two_seeds disk_fails_once 0 hi a_url st).1
              = Raise OSError) /\
  exists fin,
    crawl simple_urllib two_seeds disk_fails_once 2 = Some (Ok tt, fin) /\
    stdout fin = [Crawling a_url; FailedExn a_url OSError; Crawling b_url] /\
    url <$> crawled_pages fin = [b_url].
Proof.
  split; [intros st; reflexivity |].
  eexists. split; [vm_compute; reflexivity |]. split; reflexivity.
Qed.

Lemma persistence_failure_is_caught_witness :
  queue (run simple_urllib two_seeds disk_fails_once 1) = [(b_url, 0)] /\
  crawled_pages (run simple_urllib two_seeds disk_fails_once 1) = [].
Proof.
  destruct (persistence_failure_is_caught simple_urllib two_seeds disk_fails_once
              0 a_url 0 [(b_url, 0)] (page_with 200 []) hi OSError)
    as (Hq & Hp & _).
  - reflexivity.
  - reflexivity.
  - apply not_elem_of_empty.
  - simpl. lia.
  - reflexivity.
  - reflexivity.
  - reflexivity.
  - intros st. reflexivity.
  - split; [exact Hq | exact Hp].
Defined.

(** C2, the claim as stated fails: page [a] links twice to [b], whose fetch
    fails with status 404 both times, so two navigations of the run have the
    same normalized URL. *)
Lemma failed_fetch_is_repeated :
  exists fin,
    crawl simple_urllib one_seed b_is_missing 3 = Some (Ok tt, fin) /\
    fetched (stdout fin) = [a_url; b_url; b_url] /\
    ~ NoDup (normalize_url simple_urllib <$> fetched (stdout fin)).
Proof.
  eexists. split; [vm_compute; reflexivity |]. split; [reflexivity |].
  simpl. intros H. apply NoDup_cons in H as [_ H].
  apply NoDup_cons in H as [H _]. apply H. vm_compute. left.
Qed.

Lemma visited_only_after_success_witness :
  normalize_url simple_urllib a_url <> normalize_url simple_urllib b_url.
Proof.
  destruct (visited_only_after_success simple_urllib two_seeds all_fine 2)
    as (_ & H & _).
  apply (H 0%nat 1%nat a_url b_url); [lia | reflexivity | reflexivity | reflexivity].
Defined.

Lemma normalize_root_slash_flips_witness :
  normalize_url simple_urllib "http://x.com" = "http://x.com/" /\
  normalize_url simple_urllib "http://x.com/" = "http://x.com" /\
  normalize_url simple_urllib "http://x.com/" <> normalize_url simple_urllib "http://x.com".
Proof.
  apply (normalize_root_slash_flips simple_urllib "http://x.com"); reflexivity.
Defined.

(** C4, on the code.  The queue is seeded with the starter URLs as they
    are: a starter URL that [is_allowed] refuses is on the frontier from the
    start, is fetched and is recorded. *)
Lemma starter_url_is_not_filtered :
  is_allowed simple_urllib stray_seed evil_url = false /\
  queue (init simple_urllib stray_seed) = [(evil_url, 0)] /\
  exists fin,
    crawl simple_urllib stray_seed all_fine 1 = Some (Ok tt, fin) /\
    fetched (stdout fin) = [evil_url] /\
    url <$> crawled_pages fin = [evil_url].
Proof.
  split; [reflexivity |]. split; [reflexivity |].
  eexists. split; [vm_compute; reflexivity |]. split; reflexivity.
Qed.

Lemma hop_limit_is_a_ceiling_witness :
  iteration simple_urllib two_seeds all_fine
    {| queue := [(b_url, 1)]; visited_urls := ∅; crawled_pages := [];
       disk := ∅; stdout := [] |}
  = empty_state /\
  (length (crawled_pages (run simple_urllib lone_seed b_is_missing 3)) <= 1)%nat.
Proof.
  destruct (hop_limit_is_a_ceiling simple_urllib two_seeds all_fine) as (H & _).
  destruct (hop_limit_is_a_ceiling simple_urllib lone_seed b_is_missing) as (_ & _ & H0).
  split.
  - rewrite (H _ b_url 1 []); [reflexivity | reflexivity | simpl; lia].
  - apply (H0 a_url 3%nat); reflexivity.
Defined.

Example max_hops_zero_run :
  exists fin,
    crawl simple_urllib lone_seed b_is_missing 3 = Some (Ok tt, fin) /\
    fetched (stdout fin) = [a_url] /\
    url <$> crawled_pages fin = [a_url].
Proof. eexists. split; [vm_compute; reflexivity |]. split; reflexivity. Qed.

(** C6, the claim as stated fails for a per-URL error that comes after the
    status check: when the content of the page cannot be read the URL is
    marked visited, and when a link handle is detached the page is recorded
    as well. *)
Lemma error_after_the_fetch_marks_the_url :
  stdout (run simple_urllib one_seed content_unreadable 1)
    = [Crawling a_url; FailedExn a_url PlaywrightError] /\
  normalize_url simple_urllib a_url
    ∈ visited_urls (run simple_urllib one_seed content_unreadable 1) /\
  crawled_pages (run simple_urllib one_seed content_unreadable 1) = [] /\
  stdout (run simple_urllib one_seed detached_handle 1)
    = [Crawling a_url; FailedExn a_url PlaywrightError] /\
  normalize_url simple_urllib a_url
    ∈ visited_urls (run simple_urllib one_seed detached_handle 1) /\
  url <$> crawled_pages (run simple_urllib one_seed detached_handle 1) = [a_url].
Proof.
  repeat split; reflexivity.
Qed.

Lemma per_url_failure_is_local_witness :
  crawled_pages (iteration simple_urllib two_seeds first_times_out
                   (init simple_urllib two_seeds)) = [] /\
  queue (iteration simple_urllib two_seeds first_times_out
           (init simple_urllib two_seeds)) = [(b_url, 0)] /\
  exists tail,
    queue (Nat.iter 0 (iteration simple_urllib two_seeds first_times_out)
             (iteration simple_urllib two_seeds first_times_out
                (init simple_urllib two_seeds))) = (b_url, 0) :: tail.
Proof.
  destruct (per_url_failure_is_local simple_urllib two_seeds first_times_out
              (init simple_urllib two_seeds) a_url 0 [(b_url, 0)])
    as (Hfail & _ & _ & _ & _ & Hturn & _).
  - reflexivity.
  - apply not_elem_of_empty.
  - simpl. lia.
  - destruct (Hfail eq_refl) as (_ & Hp & _ & _ & _ & Hq).
    split; [exact Hp |]. split; [exact Hq |].
    apply (Hturn 0%nat (b_url, 0)). reflexivity.
Defined.

(** C7, the claim as stated fails: the second handle of page [a] is detached,
    the record of [a] is there, and the link read before the failure is on
    the queue and is fetched next. *)
Lemma link_before_the_failure_is_enqueued :
  link_error simple_urllib a_url (Raise PlaywrightError) = Some PlaywrightError /\
  stdout (run simple_urllib one_seed detached_handle 1)
    = [Crawling a_url; FailedExn a_url PlaywrightError] /\
  url <$> crawled_pages (run simple_urllib one_seed detached_handle 1) = [a_url] /\
  queue (run simple_urllib one_seed detached_handle 1) = [(b_url, 1)] /\
  fetched (stdout (run simple_urllib one_seed detached_handle 2)) = [a_url; b_url].
Proof. repeat split; reflexivity. Qed.

Lemma extraction_failure_keeps_earlier_links_witness :
  queue (iteration simple_urllib one_seed detached_handle
           (init simple_urllib one_seed)) = [(b_url, 1)].
Proof.
  destruct (extraction_failure_keeps_earlier_links simple_urllib one_seed
              detached_handle (init simple_urllib one_seed) a_url 0 []
              (page_with 200 [Ok (Some b_url); Raise PlaywrightError]) hi
              [Ok (Some b_url)] PlaywrightError)
    as (_ & Hq & _).
  - reflexivity.
  - apply not_elem_of_empty.
  - simpl. lia.
  - reflexivity.
  - reflexivity.
  - reflexivity.
  - intros st0. reflexivity.
  - right. exists (Raise PlaywrightError), []. split; [reflexivity |].
    split; [| reflexivity]. repeat constructor.
  - rewrite Hq. reflexivity.
Defined.

(** C8, the claim as stated fails: the URL has a port, its host ends with
    the allowed entry, and [is_allowed] refuses it, because the test is on
    the network location. *)
Lemma host_with_port_is_refused :
  netloc simple_urllib "http://example.com:8080/a" = "example.com:8080" /\
  host_component (netloc simple_urllib "http://example.com:8080/a") = "example.com" /\
  allowed_domains one_seed = ["example.com"] /\
  PyStr.endswith "example.com" "example.com" = true /\
  is_allowed simple_urllib one_seed "http://example.com:8080/a" = false.
Proof. repeat split; reflexivity. Qed.

Lemma is_allowed_iff_suffix_witness :
  is_allowed simple_urllib one_seed "http://blog.example.com/post" = true.
Proof.
  destruct (is_allowed_iff_suffix simple_urllib one_seed "http://blog.example.com/post")
    as [_ Hhost].
  apply Hhost; [reflexivity |].
  exists "example.com". split; [apply list_elem_of_singleton; reflexivity |].
  exists "blog.". reflexivity.
Defined.

(** C9, the claim as stated fails: the page is the one character U+00E9,
    which is saved as two bytes, and the record has size 1. *)
Lemma size_is_not_the_byte_length :
  exists st',
    save_page_content one_seed accented 0 e_acute a_url empty_state = (Ok tt, st') /\
    size <$> crawled_pages st' = [1] /\
    disk st' !! save_path one_seed accented 0 = Some [195; 169]%N /\
    utf8_encode e_acute = Ok [195; 169]%N.
Proof.
  eexists. split; [reflexivity |]. split; [reflexivity |].
  split; [vm_compute; reflexivity | reflexivity].
Qed.

Lemma saved_record_counts_characters_witness :
  exists st',
    save_page_content one_seed all_fine 0 hi a_url empty_state = (Ok tt, st') /\
    crawled_pages st' =
      [{| url := a_url;
          local_filepath := "store/0f8fad5bd9cb469fa16570867728950e.html";
          size := 2 |}].
Proof.
  eexists. split; [reflexivity |].
  destruct (saved_record_counts_characters one_seed all_fine 0 hi a_url
              empty_state _ eq_refl) as (bytes & _ & Hp & _).
  rewrite Hp. reflexivity.
Defined.

Lemma unsaved_page_stays_visited_witness :
  a_url ∈ visited_urls (run simple_urllib two_seeds disk_fails_once 1) /\
  crawled_pages (run simple_urllib two_seeds disk_fails_once 1) = [].
Proof.
  destruct (unsaved_page_stays_visited simple_urllib two_seeds disk_fails_once
              1 0 a_url (page_with 200 []) hi OSError)
    as (Hv & _).
  - reflexivity.
  - reflexivity.
  - reflexivity.
  - reflexivity.
  - intros st. reflexivity.
  - split; [exact Hv | reflexivity].
Defined.

End Runs.

(** * Reading the pages back *)

(** ** UTF-8: decoding what was encoded *)

Ltac settle_comparisons :=
  repeat match goal with
    | |- context [(?a <? ?b)%N] =>
        first [ rewrite (proj2 (N.ltb_lt a b)) by lia
              | rewrite (proj2 (N.ltb_ge a b)) by lia ]
    | |- context [(?a <=? ?b)%N] =>
        first [ rewrite (proj2 (N.leb_le a b)) by lia
              | rewrite (proj2 (N.leb_gt a b)) by lia ]
    | |- context [(?a =? ?b)%N] =>
        first [ rewrite (proj2 (N.eqb_eq a b)) by lia
              | rewrite (proj2 (N.eqb_neq a b)) by lia ]
    end.

Lemma utf8_decode_char c cs rest :
  utf8_char c = Some cs ->
  utf8_decode (cs ++ rest) = cons c <$> utf8_decode rest.
Proof.
  unfold utf8_char.
  destruct (N.ltb_spec c 128) as [H1 | H1].
  { intros [= <-]. cbn [app utf8_decode]. now settle_comparisons. }
  destruct (N.ltb_spec c 2048) as [H2 | H2].
  { intros [= <-]. cbn [app utf8_decode]. unfold is_cont.
    pose proof (N.div_mod c 64 ltac:(lia)) as Hc.
    pose proof (N.mod_lt c 64 ltac:(lia)) as Hr.
    set (q := (c / 64)%N) in *. set (r := (c mod 64)%N) in *. clearbody q r.
    settle_comparisons. simpl. do 2 f_equal. lia. }
  assert (Hsplit : forall x : N,
            (x / 4096 = x / 64 / 64 /\ x / 262144 = x / 64 / 64 / 64)%N).
  { intros x. rewrite !N.Div0.div_div. done. }
  destruct (Hsplit c) as [E1 E2].
  pose proof (N.div_mod c 64 ltac:(lia)) as Hc.
  pose proof (N.mod_lt c 64 ltac:(lia)) as Hr.
  pose proof (N.div_mod (c / 64) 64 ltac:(lia)) as Hc1.
  pose proof (N.mod_lt (c / 64) 64 ltac:(lia)) as Hr1.
  pose proof (N.div_mod (c / 64 / 64) 64 ltac:(lia)) as Hc2.
  pose proof (N.mod_lt (c / 64 / 64) 64 ltac:(lia)) as Hr2.
  rewrite E1, E2.
  destruct (N.ltb_spec c 65536) as [H3 | H3].
  { destruct (N.leb_spec 55296 c) as [H4 | H4];
      [destruct (N.ltb_spec c 57344) as [H5 | H5]; [done |] |];
      simpl; intros [= <-]; cbn [app utf8_decode]; unfold is_cont.
    all: set (q := (c / 64)%N) in *; set (r := (c mod 64)%N) in *;
         set (q1 := (q / 64)%N) in *; set (r1 := (q mod 64)%N) in *;
         clearbody r r1 q1 q.
    all: destruct (N.eqb_spec (224 + q1) 224); destruct (N.eqb_spec (224 + q1) 237);
         settle_comparisons; simpl; do 2 f_equal; lia. }
  destruct (N.ltb_spec c 1114112) as [H4 | H4]; [| done].
  intros [= <-]. cbn [app utf8_decode]. unfold is_cont.
  set (q := (c / 64)%N) in *. set (r := (c mod 64)%N) in *.
  set (q1 := (q / 64)%N) in *. set (r1 := (q mod 64)%N) in *.
  set (q2 := (q1 / 64)%N) in *. set (r2 := (q1 mod 64)%N) in *.
  clearbody r r1 r2 q2 q1 q.
  destruct (N.eqb_spec (240 + q2) 240); destruct (N.eqb_spec (240 + q2) 244);
    settle_comparisons; simpl; do 2 f_equal; lia.
Qed.

Lemma utf8_round_trip (s : text) bytes :
  utf8_encode s = Ok bytes -> utf8_decode bytes = Some s.
Proof.
  revert bytes. induction s as [|c s IH]; intros bytes.
  - now intros [= <-].
  - cbn [utf8_encode].
    destruct (utf8_char c) as [cs|] eqn:Hc; [| done].
    destruct (utf8_encode s) as [rest|e]; [| done].
    intros [= <-]. rewrite (utf8_decode_char _ _ _ Hc), (IH rest eq_refl). done.
Qed.

(** ** Universal newlines *)

Lemma universal_newlines_facts (n : nat) :
  forall s : text, (length s <= n)%nat ->
    (13%N ∉ universal_newlines s) /\
    (13%N ∉ s -> universal_newlines s = s).
Proof.
  induction n as [|n IH]; intros s Hlen.
  { destruct s; [| simpl in Hlen; lia]. split; [set_solver | done]. }
  destruct s as [|c s]; [split; [set_solver | done] |].
  simpl in Hlen. cbn [universal_newlines].
  destruct (N.eqb_spec c 13) as [-> | Hc].
  - split; [| set_solver].
    destruct s as [|c' s]; [set_solver |]. simpl in Hlen.
    destruct (N.eqb_spec c' 10) as [-> | Hc'].
    + destruct (IH s ltac:(lia)) as [H _]. set_solver.
    + destruct (IH (c' :: s) ltac:(simpl; lia)) as [H _]. set_solver.
  - destruct (IH s ltac:(lia)) as [H1 H2]. split; [set_solver |].
    intros Hs. rewrite H2; [done | set_solver].
Qed.

Lemma universal_newlines_id (s : text) : 13%N ∉ s -> universal_newlines s = s.
Proof. apply (universal_newlines_facts (length s) s). done. Qed.

Lemma universal_newlines_no_cr (s : text) : 13%N ∉ universal_newlines s.
Proof. apply (universal_newlines_facts (length s) s). done. Qed.

Lemma get_file_content_encoded files path (c : text) bytes :
  files !! path = Some bytes -> utf8_encode c = Ok bytes ->
  get_file_content files path = Done (universal_newlines c).
Proof.
  intros Hf He. unfold get_file_content.
  now rewrite Hf, (utf8_round_trip _ _ He).
Qed.

(** X13.  Saving and reading back: after a completed [save_page_content],
    [get_file_content] on the path of the save returns the content with
    every ["\r\n"] and lone ["\r"] read as ["\n"]; it is the content itself
    when that has no carriage return, and what is read never has one. *)
Theorem saved_page_reads_back self w k c u st st' :
  save_page_content self w k c u st = (Ok tt, st') ->
  get_file_content (disk st') (save_path self w k) = Done (universal_newlines c) /\
  (13%N ∉ universal_newlines c) /\
  (13%N ∉ c -> get_file_content (disk st') (save_path self w k) = Done c).
Proof.
  rewrite save_page_content_spec.
  destruct (open_w w k _); [| done]. simpl.
  destruct (utf8_encode c) as [bytes|] eqn:Henc; [| done]. simpl.
  destruct (write_w w k _ bytes); [| done].
  intros [= <-]. simpl.
  assert (H : get_file_content
                (<[save_path self w k := bytes]>
                   (<[save_path self w k := take (flushed w k) bytes]>
                      (<[save_path self w k := []]> (disk st))))
                (save_path self w k) = Done (universal_newlines c)).
  { eapply get_file_content_encoded; [apply lookup_insert_eq | done]. }
  split; [done |]. split; [apply universal_newlines_no_cr |].
  intros Hc. now rewrite H, universal_newlines_id.
Qed.

(** ** [ensure_docs_have_user_id] *)

(** X14.  When the configuration has [config["configurable"]["user_id"]],
    [ensure_docs_have_user_id] returns as many documents as it was given,
    in the same order and with the same text; each carries that user id
    under ["user_id"], replacing any it had, and its other metadata are
    unchanged. *)
Theorem ensure_docs_stamps_every_doc {V : Type} (docs : list (document V))
    config configurable uid :
  config !! "configurable" = Some configurable ->
  configurable !! "user_id" = Some uid ->
  exists out,
    ensure_docs_have_user_id docs config = Done out /\
    length out = length docs /\
    forall i d, docs !! i = Some d ->
      exists d', out !! i = Some d' /\
        page_content d' = page_content d /\
        metadata d' !! "user_id" = Some uid /\
        forall key, key <> "user_id" -> metadata d' !! key = metadata d !! key.
Proof.
  intros Hc Hu. unfold ensure_docs_have_user_id. rewrite Hc, Hu.
  eexists. split; [done |]. split; [apply length_map |].
  intros i d Hi. eexists. split.
  - change (map ?f docs) with (f <$> docs). rewrite list_lookup_fmap, Hi. done.
  - simpl. split; [done |]. split; [apply lookup_insert_eq |].
    intros key Hk. now apply lookup_insert_ne.
Qed.

(** X15.  [ensure_docs_have_user_id] is idempotent: stamping its own result
    again with the same configuration returns that result. *)
Theorem ensure_docs_twice {V : Type} (docs : list (document V)) config out :
  ensure_docs_have_user_id docs config = Done out ->
  ensure_docs_have_user_id out config = Done out.
Proof.
  unfold ensure_docs_have_user_id.
  destruct (config !! "configurable") as [configurable|]; [| done].
  destruct (configurable !! "user_id") as [uid|]; [| done].
  intros [= <-]. f_equal. rewrite map_map. apply map_ext. intros d. simpl.
  now rewrite insert_insert_eq.
Qed.

(** ** [crawl] of [index_graph.py] *)

Section TenantCrawl.

Variable lib : urllib.
Variable w : world.
Variable tenant : string.
Variable starters : list string.
Variable hopsv : Z.

Local Abbreviation tc := (tenant_crawler lib tenant starters hopsv).

Lemma endswith_refl s : PyStr.endswith s s = true.
Proof. apply endswith_spec. now exists "". Qed.

Lemma tenant_allows_netloc s u :
  s ∈ starters -> netloc lib u = netloc lib s -> is_allowed lib tc u = true.
Proof.
  intros Hs Hu. apply is_allowed_intro with (netloc lib s).
  - simpl. apply elem_of_elements, elem_of_list_to_set, list_elem_of_fmap. eauto.
  - rewrite Hu. apply endswith_refl.
Qed.

(** X17.  For the crawler that [crawl(tenant, starter_urls, hops)] builds,
    the domain filter covers the starter URLs too, provided normalizing a
    starter URL keeps its network location: then every queue entry and
    every URL navigated to satisfies [is_allowed]. *)
Theorem tenant_crawl_stays_in_scope n :
  (forall s, s ∈ starters -> netloc lib (normalize_url lib s) = netloc lib s) ->
  Forall (fun e => is_allowed lib tc e.1 = true) (queue (run lib tc w n)) /\
  Forall (fun u => is_allowed lib tc u = true) (fetched (stdout (run lib tc w n))).
Proof.
  intros Hkeep.
  assert (Hseed : forall u, u ∈ (normalize_url lib <$> starter_urls tc) ->
                            is_allowed lib tc u = true).
  { intros u Hu. apply list_elem_of_fmap in Hu as (s & -> & Hs).
    apply tenant_allows_netloc with s; [done | now apply Hkeep]. }
  destruct (filtered_run lib tc w n) as [Hq Hf]. split.
  - eapply Forall_impl; [exact Hq |]. intros e [[_ He] | [_ He]]; eauto.
  - eapply Forall_impl; [exact Hf |]. intros u [Hu | Hu]; eauto.
Qed.

(** X18.  A starter URL with an empty network location, such as one
    written without its scheme, puts the empty string among the allowed
    domains, and the crawler that [crawl(tenant, starter_urls, hops)]
    builds then allows every URL. *)
Theorem starter_without_netloc_allows_everything s u :
  s ∈ starters -> netloc lib s = "" -> is_allowed lib tc u = true.
Proof.
  intros Hs He. apply is_allowed_intro with "".
  - simpl. apply elem_of_elements, elem_of_list_to_set, list_elem_of_fmap. eauto.
  - apply endswith_nil.
Qed.

End TenantCrawl.

Lemma read_pages_done files pages :
  (forall r, r ∈ pages ->
     exists s, get_file_content files (local_filepath r) = Done s) ->
  exists docs,
    read_pages files pages = Done docs /\
    Forall2 (fun r d =>
               metadata d = {["url" := url r]} /\
               get_file_content files (local_filepath r) = Done (page_content d))
            pages docs.
Proof.
  induction pages as [|r pages IH]; intros Hall.
  - exists []. split; [done | constructor].
  - destruct (Hall r ltac:(set_solver)) as [s Hs].
    destruct IH as (docs & Hdocs & Hforall); [intros r' Hr'; apply Hall; set_solver |].
    eexists. cbn [read_pages]. rewrite Hs, Hdocs. split; [done |].
    constructor; [done | done].
Qed.

(** X20.  When [crawler.crawl()] has returned and [uuid4] never repeated a
    name, the list comprehension that ends [crawl] of [index_graph.py]
    reads every page back: it gives one document per record, in the order
    of the records, whose metadata is exactly the URL of the record and
    whose text is the content that the navigation of the record rendered,
    with ["\r\n"] and lone ["\r"] read as ["\n"]. *)
Theorem documents_hold_the_pages lib self w fuel fin :
  (forall i j, uuid4_hex w i = uuid4_hex w j -> i = j) ->
  crawl lib self w fuel = Some (Ok tt, fin) ->
  exists docs,
    read_pages (disk fin) (crawled_pages fin) = Done docs /\
    Forall2 (fun r d =>
               metadata d = {["url" := url r]} /\
               exists i p c,
                 fetched (stdout fin) !! i = Some (url r) /\
                 goto w i (url r) = Ok p /\ content p = Ok c /\
                 page_content d = universal_newlines c)
            (crawled_pages fin) docs.
Proof.
  intros Hinj Hcrawl. unfold crawl in Hcrawl.
  destruct (launch w); [| done].
  destruct (crawl_loop lib self w fuel (init lib self)) as [st|] eqn:Hloop; [| done].
  injection Hcrawl as <-. apply crawl_loop_run in Hloop as [-> _].
  destruct (read_pages_done (disk (run lib self w fuel))
              (crawled_pages (run lib self w fuel))) as (docs & Hdocs & Hall).
  { intros r Hr.
    destruct (faithful_files_run lib self w fuel r Hinj Hr)
      as (i & p & c & bytes & _ & _ & _ & He & Hrec & Hdisk).
    exists (universal_newlines c). rewrite Hrec. simpl.
    eapply get_file_content_encoded; eauto. }
  exists docs. split; [done |].
  apply Forall2_same_length_lookup. split; [now apply Forall2_length in Hall |].
  intros k r d Hr Hd.
  eapply Forall2_lookup_lr in Hall as [Hmeta Hread]; [| exact Hr | exact Hd].
  split; [done |].
  assert (Hin : r ∈ crawled_pages (run lib self w fuel)).
  { eapply list_elem_of_lookup_2, Hr. }
  destruct (faithful_files_run lib self w fuel r Hinj Hin)
    as (i & p & c & bytes & Hi & Hg & Hc & He & Hrec & Hdisk).
  exists i, p, c. repeat split; try done.
  rewrite Hrec in Hread. simpl in Hread.
  rewrite (get_file_content_encoded _ _ _ _ Hdisk He) in Hread.
  now injection Hread as <-.
Qed.

(** ** Closed instances of the further properties *)

Module MoreRuns.
Import Examples MoreExamples.

Lemma tally_inj i j : tally i = tally j -> i = j.
Proof.
  revert j. induction i as [|i IH]; intros [|j]; simpl; try done.
  intros [= H]. f_equal. now apply IH.
Qed.

Example decode_rejects_overlong : utf8_decode [192; 128]%N = None.
Proof. reflexivity. Qed.

Example decode_rejects_surrogate : utf8_decode [237; 160; 128]%N = None.
Proof. reflexivity. Qed.

Example decode_euro : utf8_decode [226; 130; 172]%N = Some [8364]%N.
Proof. reflexivity. Qed.

Example newlines_crlf : universal_newlines crlf = [97; 10; 98]%N.
Proof. reflexivity. Qed.

Lemma failed_save_leaves_no_record_witness :
  crawled_pages (save_page_content two_seeds disk_full 0 hi a_url empty_state).2 = [].
Proof.
  destruct (failed_save_leaves_no_record two_seeds disk_full 0 hi a_url
              empty_state OSError
              (save_page_content two_seeds disk_full 0 hi a_url empty_state).2)
    as (Hp & _).
  - reflexivity.
  - exact Hp.
Defined.

Example full_disk_leaves_a_partial_file :
  disk (save_page_content two_seeds disk_full 0 hi a_url empty_state).2
    !! save_path two_seeds disk_full 0 = Some [104]%N.
Proof. vm_compute. reflexivity. Qed.

Lemma record_files_exist_witness :
  is_Some (disk (run simple_urllib one_seed fresh_names 2)
             !! save_path one_seed fresh_names 1).
Proof.
  apply (record_files_exist simple_urllib one_seed fresh_names 2
           (record_of one_seed fresh_names 1 b_url hi)).
  vm_compute. right. left.
Defined.

Lemma record_files_hold_the_content_witness :
  exists i p c bytes,
    fetched (stdout (run simple_urllib one_seed fresh_names 2)) !! i = Some b_url /\
    goto fresh_names i b_url = Ok p /\ content p = Ok c /\
    utf8_encode c = Ok bytes /\
    disk (run simple_urllib one_seed fresh_names 2) !! save_path one_seed fresh_names i
      = Some bytes.
Proof.
  destruct (record_files_hold_the_content simple_urllib one_seed fresh_names 2
              (record_of one_seed fresh_names 1 b_url hi))
    as (i & p & c & bytes & H1 & H2 & H3 & H4 & _ & H6).
  - exact tally_inj.
  - vm_compute. right. left.
  - exists i, p, c, bytes. repeat split; assumption.
Defined.

Lemma every_seed_is_tried_witness :
  b_url ∈ fetched (stdout (run simple_urllib two_seeds all_fine 2)) \/
  b_url ∈ visited_urls (run simple_urllib two_seeds all_fine 2).
Proof.
  apply (every_seed_is_tried simple_urllib two_seeds all_fine 2
           (run simple_urllib two_seeds all_fine 2) b_url).
  - simpl. lia.
  - vm_compute. reflexivity.
  - simpl. right. left.
Defined.

Lemma negative_hops_fetch_nothing_witness :
  fetched (stdout (run simple_urllib no_hops all_fine 2)) = [].
Proof.
  destruct (negative_hops_fetch_nothing simple_urllib no_hops all_fine 2) as (H & _).
  - simpl. lia.
  - exact H.
Defined.

Lemma trailing_slash_is_ignored_witness :
  normalize_url simple_urllib "http://x.com/a/" = normalize_url simple_urllib "http://x.com/a".
Proof.
  destruct (trailing_slash_is_ignored simple_urllib "http://x.com/a") as [H _].
  - reflexivity.
  - reflexivity.
  - left. simpl. lia.
  - exact H.
Defined.

Lemma key_with_slash_is_a_root_witness :
  PyStr.count "/" (urldefrag simple_urllib "http://x.com#top") = 2%nat.
Proof.
  destruct (key_with_slash_is_a_root simple_urllib "http://x.com#top") as [H _].
  - reflexivity.
  - exact H.
Defined.

Lemma crawl_stays_on_the_seeds_witness :
  (length (fetched (stdout (run simple_urllib lone_seed fresh_names 3))) <= 1)%nat.
Proof.
  destruct (crawl_stays_on_the_seeds simple_urllib lone_seed fresh_names 3) as [_ H].
  - left. reflexivity.
  - exact H.
Defined.

Lemma saved_page_reads_back_witness :
  get_file_content
    (disk (save_page_content one_seed all_fine 0 crlf a_url empty_state).2)
    (save_path one_seed all_fine 0)
  = Done [97; 10; 98]%N.
Proof.
  destruct (saved_page_reads_back one_seed all_fine 0 crlf a_url empty_state
              (save_page_content one_seed all_fine 0 crlf a_url empty_state).2)
    as (H & _).
  - reflexivity.
  - rewrite H. reflexivity.
Defined.

Lemma ensure_docs_stamps_every_doc_witness :
  exists out,
    ensure_docs_have_user_id two_docs alice_config = Done out /\
    length out = 2%nat.
Proof.
  destruct (ensure_docs_stamps_every_doc two_docs alice_config
              {["user_id" := "alice"]} "alice")
    as (out & H1 & H2 & _).
  - reflexivity.
  - reflexivity.
  - exists out. split; [exact H1 | exact H2].
Defined.

Example stamping_replaces_bob :
  exists out,
    ensure_docs_have_user_id two_docs alice_config = Done out /\
    (fun d => metadata d !! "user_id") <$> out = [Some "alice"; Some "alice"] /\
    (fun d => metadata d !! "url") <$> out = [Some a_url; None].
Proof. eexists. split; [reflexivity |]. split; vm_compute; reflexivity. Qed.

Lemma ensure_docs_twice_witness :
  exists out,
    ensure_docs_have_user_id two_docs alice_config = Done out /\
    ensure_docs_have_user_id out alice_config = Done out.
Proof.
  eexists. split; [reflexivity |].
  apply (ensure_docs_twice two_docs alice_config). reflexivity.
Defined.

Lemma tenant_crawl_stays_in_scope_witness :
  Forall (fun u => is_allowed simple_urllib
                     (tenant_crawler simple_urllib "acme" [a_url] 1) u = true)
         (fetched (stdout (run simple_urllib
                             (tenant_crawler simple_urllib "acme" [a_url] 1)
                             fresh_names 2))).
Proof.
  destruct (tenant_crawl_stays_in_scope simple_urllib fresh_names "acme" [a_url] 1 2)
    as [_ H].
  - intros s Hs. apply list_elem_of_singleton in Hs. subst s. reflexivity.
  - exact H.
Defined.

Lemma starter_without_netloc_allows_everything_witness :
  is_allowed simple_urllib (tenant_crawler simple_urllib "acme" [bare_url] 1) evil_url
  = true.
Proof.
  apply (starter_without_netloc_allows_everything simple_urllib "acme" [bare_url] 1
           bare_url evil_url).
  - apply list_elem_of_singleton. reflexivity.
  - reflexivity.
Defined.

Lemma documents_hold_the_pages_witness :
  exists docs,
    read_pages (disk (run simple_urllib one_seed fresh_names 2))
               (crawled_pages (run simple_urllib one_seed fresh_names 2))
      = Done docs /\
    length docs = 2%nat.
Proof.
  destruct (documents_hold_the_pages simple_urllib one_seed fresh_names 2
              (run simple_urllib one_seed fresh_names 2))
    as (docs & Hdocs & Hall).
  - exact tally_inj.
  - vm_compute. reflexivity.
  - exists docs. split; [exact Hdocs |].
    apply Forall2_length in Hall. rewrite <- Hall. reflexivity.
Defined.

Example two_pages_read_back :
  read_pages (disk (run simple_urllib one_seed fresh_names 2))
             (crawled_pages (run simple_urllib one_seed fresh_names 2))
  = Done [ {| page_content := hi; metadata := {["url" := a_url]} |};
           {| page_content := hi; metadata := {["url" := b_url]} |} ].
Proof. vm_compute. reflexivity. Qed.

End MoreRuns.
